(** * Reproducible dot products of dg::blas2 (feltor): a shallow embedding

    The development follows the sources
    - [inc/dg/backend/exblas/exdot.fpe_cpu.cpp]  (local reduction kernels),
    - [inc/dg/backend/blas2_dispatch_mpi.h]      (MPI and nested dispatch),
    - [inc/dg/blas2.h]                           (dot, symv, gemv front end),
    - [inc/dg/backend/mpi_grid.h]                (local/global index maps).

    Doubles are IEEE binary64 values in the representation of the Standard
    Library's [SpecFloat]; 64-bit and 32-bit integers are [Z] with the
    wrap-around written out. *)

From Stdlib Require Import ZArith List Bool Lia Permutation SpecFloat.
Import ListNotations.

Local Open Scope Z_scope.

(* ===================================================================== *)
(** * Part I: definitions                                                 *)
(* ===================================================================== *)

(** ** Machine integers *)

(** [int64_t]: two's complement wrap-around to 64 bits. *)
Definition wrap64 (z : Z) : Z := (z + 2 ^ 63) mod 2 ^ 64 - 2 ^ 63.

(** [unsigned]: reduction modulo 2^32. *)
Definition u32 (z : Z) : Z := z mod 2 ^ 32.

(** [(int)u]: conversion of a 32-bit pattern to a signed [int]. *)
Definition to_int (z : Z) : Z := (z + 2 ^ 31) mod 2 ^ 32 - 2 ^ 31.

(** Conversion of an [int] to [bool] (any nonzero value is [true]). *)
Definition bool_of_int (z : Z) : bool := negb (z =? 0).

(** ** IEEE doubles *)

Module Double.

Definition prec : Z := 53.
Definition emax : Z := 1024.

Definition double : Type := spec_float.

Definition zero : double := S754_zero false.
Definition mul (x y : double) : double := SFmul prec emax x y.
Definition add (x y : double) : double := SFadd prec emax x y.
Definition opp (x : double) : double := SFopp x.
Definition eqb (x y : double) : bool := SFeqb x y.

(** The double nearest (ties to even) to [m * 2^e]. *)
Definition of_Z_scaled (m e : Z) : double := binary_normalize prec emax m e false.
Definition of_Z (m : Z) : double := of_Z_scaled m 0.

(** Fused multiply-add [x*y + z] with a single rounding
    ([vcl::mul_add] on hardware with FMA3).  The product of two finite
    numbers is kept exact, as the unrounded [S754_finite] of mantissa
    [mx*my] and exponent [ex+ey]; [SFadd] then rounds the exact sum once.
    When [z] is a zero the result is the rounded product. *)
Definition fma (x y z : double) : double :=
  match x, y with
  | S754_finite sx mx ex, S754_finite sy my ey =>
      match z with
      | S754_zero _ => mul x y
      | _ => add (S754_finite (xorb sx sy) (mx * my) (ex + ey)) z
      end
  | _, _ => add (mul x y) z
  end.

Definition is_finite (x : double) : bool :=
  match x with
  | S754_zero _ | S754_finite _ _ _ => true
  | _ => false
  end.

Definition is_zero (x : double) : bool :=
  match x with
  | S754_zero _ => true
  | _ => false
  end.

(** A well-formed binary64 datum: canonical mantissa, exponent in range. *)
Definition valid (x : double) : bool := valid_binary prec emax x.

(** Exact value of a finite double as a dyadic number [num * 2^ex]. *)
Definition num (x : double) : Z :=
  match x with
  | S754_finite s m _ => cond_Zopp s (Zpos m)
  | _ => 0
  end.

Definition ex (x : double) : Z :=
  match x with
  | S754_finite _ _ e => e
  | _ => 0
  end.

End Double.

Import Double.

(** ** The superaccumulator of exblas *)

Module Exblas.

(** Size of a superaccumulator in 64-bit words, stated at [exdot_cpu]. *)
Definition BIN_COUNT : nat := 39.

(** Modelled from the spec: the files [config.h], [accumulate.h] and
    [ExSUM.FPE.hpp] of exblas are not among the sources.  The spec gives
    the accumulator as B (about 39) signed 64-bit bins of width kappa with
    a margin of carry bits, representing [sum_i bin[i] * 2^(i*kappa + offset)].
    The width is fixed here to 56 bits, which leaves 8 carry bits in a
    64-bit word. *)
Definition DIGITS : Z := 56.

(** Modelled from the spec: the number of bins below the binary point,
    20 of the 39. *)
Definition F_WORDS : Z := 20.

(** Modelled from the spec: the offset of the first bin.  With it the 39
    bins span 2^-1120 .. 2^1064, which covers every finite double. *)
Definition OFFSET : Z := - (F_WORDS * DIGITS).

(** Modelled from the spec: [IMIN] ([config.h] is missing) is the first
    bin of the inclusive range handed to [Normalize]. *)
Definition IMIN : nat := 0.

(** Modelled from the spec: [IMAX] ([config.h] is missing) is the last
    bin of the inclusive range handed to [Normalize]; the full range of a
    superaccumulator of [BIN_COUNT] bins is [0 .. BIN_COUNT-1]. *)
Definition IMAX : nat := 38.

(** A superaccumulator: [BIN_COUNT] words of type [int64_t]. *)
Definition superacc : Type := list Z.

(** Modelled from the spec: the number a superaccumulator represents,
    [sum_i bin[i] * 2^(i*DIGITS)] in units of [2^OFFSET]. *)
Fixpoint value (acc : superacc) : Z :=
  match acc with
  | [] => 0
  | b :: rest => b + 2 ^ DIGITS * value rest
  end.

(** Modelled from the spec: the contribution of a double to the bins,
    in units of [2^OFFSET].  Only finite values inside the exponent range
    of the bins pass through the bin machinery; NaN and the infinities
    are special-cased outside of it and leave the bins untouched. *)
Definition contrib (x : double) : Z :=
  match x with
  | S754_finite s m e =>
      if (OFFSET <=? e) && (Zpos m <? 2 ^ 53) && (e <=? 971)
      then cond_Zopp s (Zpos m * 2 ^ (e - OFFSET))
      else 0
  | _ => 0
  end.

(** Modelled from the spec: splitting an integer contribution over the
    bins it straddles and adding each part to its bin; the last bin takes
    whatever is left. *)
Fixpoint add_int (z : Z) (acc : superacc) : superacc :=
  match acc with
  | [] => []
  | [b] => [wrap64 (b + z)]
  | b :: rest =>
      wrap64 (b + Z.rem z (2 ^ DIGITS)) :: add_int (Z.quot z (2 ^ DIGITS)) rest
  end.

(** Modelled from the spec: carry propagation over [k] bins; every bin
    passed keeps its low [DIGITS] bits and hands the rest to the next
    one, and the bin that ends the range keeps the last carry. *)
Fixpoint carry_prop (k : nat) (carry : Z) (acc : superacc) {struct acc} : superacc :=
  match acc with
  | [] => []
  | b :: rest =>
      match k with
      | O => wrap64 (b + carry) :: rest
      | S k' =>
          let t := wrap64 (b + carry) in
          let c := Z.shiftr t DIGITS in
          (t - Z.shiftl c DIGITS) :: carry_prop k' c rest
      end
  end.

(** Modelled from the spec: [Normalize(iMin, iMax)] propagates carries
    between the bins of the inclusive range and leaves the others alone. *)
Definition Normalize (imin imax : nat) (acc : superacc) : superacc :=
  firstn imin acc ++ carry_prop (imax - imin) 0 (skipn imin acc).

(** Modelled from the spec: the bound on the accumulations between two
    normalizations is kept by looking at the bins: a bin that has used up
    most of its carry bits forces the mandatory normalize. *)
Definition needs_normalize (acc : superacc) : bool :=
  negb (forallb (fun b => Z.abs b <=? 2 ^ 61) acc).

(** Modelled from the spec: [Accumulate(double v)]. *)
Definition Accumulate (acc : superacc) (x : double) : superacc :=
  add_int (contrib x)
    (if needs_normalize acc then Normalize IMIN IMAX acc else acc).

(** Modelled from the spec: [Round()] normalizes and returns the double
    nearest (ties to even) to the represented number. *)
Definition Round (acc : superacc) : double :=
  of_Z_scaled (value (Normalize IMIN IMAX acc)) OFFSET.

(** Modelled from the spec: the error-free product [TwoProductFMA]
    ([accumulate.h] is missing): head is the rounded product, tail is
    [fma(a, b, -head)]. *)
Definition TwoProductFMA (a b : double) : double * double :=
  let p := mul a b in (p, fma a b (opp p)).

End Exblas.

Import Exblas.

(** ** The local reduction kernels ([exdot.fpe_cpu.cpp]) *)

Module ExDot.

(** [vcl::Vec8d]: a vector of eight lanes. *)
Definition Vec8d : Type := list double.

(** [p + i] on an array given as the list of the elements [p] points to. *)
Definition offset (p : list double) (i : Z) : list double :=
  skipn (Z.to_nat i) p.

(** [Vec8d().load_partial(n, p)]: the first [n] lanes come from [p], the
    others are zero.  (Reading past the end of the array is undefined in
    the source; the model leaves such lanes out.) *)
Definition load_partial (n : Z) (p : list double) : Vec8d :=
  let k := Z.to_nat (Z.max 0 (Z.min n 8)) in
  firstn k p ++ repeat zero (8 - k).

(** [Vec8d().load(p)]: eight lanes from [p]. *)
Definition load (p : list double) : Vec8d := firstn 8 p.

(** Lane-wise [TwoProductFMA(a, b, r1)]: returns the heads, [r1] holds
    the tails. *)
Definition TwoProductFMA8 (a b : Vec8d) : Vec8d * Vec8d :=
  let hts := map (fun ab => TwoProductFMA (fst ab) (snd ab)) (combine a b) in
  (map fst hts, map snd hts).

(** Lane-wise [vcl::mul_add(a, b, 0)]. *)
Definition mul_add0 (a b : Vec8d) : Vec8d :=
  map (fun ab => fma (fst ab) (snd ab) zero) (combine a b).

(** The template parameter [CACHE] of the kernels: built on a
    superaccumulator, fed with vectors, flushed at the end. *)
Class CACHE (C : Type) : Type := {
  cache_make : superacc -> C;
  cache_Accumulate : C -> Vec8d -> C;
  cache_Flush : C -> superacc
}.

(** Modelled from the spec: [FPExpansionVect<Vec8d, 8, ...>]
    ([ExSUM.FPE.hpp] is missing).  Every lane handed to the cache is
    accumulated into the one superaccumulator it was built on; after
    [Flush] nothing is pending. *)
#[export] Instance FPExpansionVect : CACHE superacc := {
  cache_make := fun acc => acc;
  cache_Accumulate := fun cache x => fold_left Accumulate x cache;
  cache_Flush := fun cache => cache
}.

Section Kernels.
Context {C : Type} `{CACHE C}.

(** [r = int64_t(N) & ~7ul], stored in an [int]. *)
Definition round_down8 (N : Z) : Z :=
  to_int (Z.land (N mod 2 ^ 64) (2 ^ 64 - 8)).

(** The body of [for(int i = 0; i < r; i+=8)], two arrays. *)
Fixpoint loop2 (iters : nat) (i : Z) (a b : list double) (cache : C) : C :=
  match iters with
  | O => cache
  | S k =>
      let '(x, r1) := TwoProductFMA8 (load (offset a i)) (load (offset b i)) in
      let cache := cache_Accumulate cache x in
      let cache := cache_Accumulate cache r1 in
      loop2 k (i + 8) a b cache
  end.

(** [ExDOTFPE_cpu(N, a, b, acc)]. *)
Definition ExDOTFPE_cpu (N : Z) (a b : list double) (acc : superacc) : superacc :=
  let cache := cache_make acc in
  let r := round_down8 N in
  let cache := loop2 (Z.to_nat (r / 8)) 0 a b cache in
  let cache :=
    if negb (r =? N) then
      let '(x, r1) := TwoProductFMA8 (load_partial (N - r) (offset a r))
                                     (load_partial (N - r) (offset b r)) in
      let cache := cache_Accumulate cache x in
      cache_Accumulate cache r1
    else cache in
  cache_Flush cache.

(** The body of [for(int i = 0; i < r; i+=8)], three arrays. *)
Fixpoint loop3 (iters : nat) (i : Z) (a b c : list double) (cache : C) : C :=
  match iters with
  | O => cache
  | S k =>
      let x1 := mul_add0 (load (offset a i)) (load (offset b i)) in
      let x2 := mul_add0 x1 (load (offset c i)) in
      loop3 k (i + 8) a b c (cache_Accumulate cache x2)
  end.

(** [ExDOTFPE_cpu(N, a, b, c, acc)]. *)
Definition ExDOTFPE_cpu3 (N : Z) (a b c : list double) (acc : superacc) : superacc :=
  let cache := cache_make acc in
  let r := round_down8 N in
  let cache := loop3 (Z.to_nat (r / 8)) 0 a b c cache in
  let cache :=
    if negb (r =? N) then
      let x1 := mul_add0 (load_partial (N - r) (offset a r))
                         (load_partial (N - r) (offset b r)) in
      let x2 := mul_add0 x1 (load_partial (N - r) (offset c r)) in
      cache_Accumulate cache x2
    else cache in
  cache_Flush cache.

End Kernels.

(** [for( int i=0; i<exblas::BIN_COUNT; i++) h_superacc[i] = 0;] *)
Definition clear (h_superacc : superacc) : superacc :=
  repeat 0 BIN_COUNT ++ skipn BIN_COUNT h_superacc.

(** [exdot_cpu(size, x1_ptr, x2_ptr, h_superacc)].  (The kernels assert
    an instruction set with AVX2; the model is of such hardware.) *)
Definition exdot_cpu (size : Z) (x1 x2 : list double) (h_superacc : superacc) : superacc :=
  ExDOTFPE_cpu (C := superacc) (to_int (u32 size)) x1 x2 (clear h_superacc).

(** [exdot_cpu(size, x1_ptr, x2_ptr, x3_ptr, h_superacc)]. *)
Definition exdot_cpu3 (size : Z) (x1 x2 x3 : list double) (h_superacc : superacc) : superacc :=
  ExDOTFPE_cpu3 (C := superacc) (to_int (u32 size)) x1 x2 x3 (clear h_superacc).

End ExDot.

Import ExDot.

(** ** Outcomes of a call *)

(** A call returns, or stops at a failed [assert], or is rejected by a
    [static_assert], or runs into undefined behaviour (an index out of the
    bounds of a [std::vector]). *)
Inductive outcome (A : Type) : Type :=
| Done (a : A)
| AssertFailed
| StaticAssert
| Undefined.

Arguments Done {A} a.
Arguments AssertFailed {A}.
Arguments StaticAssert {A}.
Arguments Undefined {A}.

Definition bind {A B : Type} (o : outcome A) (f : A -> outcome B) : outcome B :=
  match o with
  | Done a => f a
  | AssertFailed => AssertFailed
  | StaticAssert => StaticAssert
  | Undefined => Undefined
  end.

Notation "x <- o ;; k" := (bind o (fun x => k))
  (at level 61, o at next level, right associativity).

(** ** Dispatch over MPI vectors ([blas2_dispatch_mpi.h]) *)

Module Blas2Mpi.

(** A process of the group: the index of its sub-group in
    [communicator_mod] and its index inside that sub-group. *)
Definition rank : Type := (nat * nat)%type.

(** An [MPI_Vector]: the local containers of all processes of its
    communicator, grouped as [communicator_mod] groups them. *)
Record MPI_Vector : Type := { local_data : list (list (list double)) }.

(** The communicator handles of a vector, up to congruence: the sizes of
    the sub-groups. *)
Definition communicator (v : MPI_Vector) : list nat :=
  map (@length _) (local_data v).

(** Operands by data layout: [MPIVectorTag] or [VectorVectorTag]. *)
#[local] Set Warnings "-register-all".
Inductive Vector : Type :=
| MPIVec (v : MPI_Vector)
| VecVec (components : list Vector).

Definition zip3 {A B D : Type} (a : list A) (b : list B) (d : list D) : list (A * B * D) :=
  combine (combine a b) d.

(** Bin-wise sum of two accumulators ([MPI_SUM] on [int64_t] words). *)
Definition merge (a b : superacc) : superacc :=
  map (fun uv => wrap64 (fst uv + snd uv)) (combine a b).

(** A collective reduce with [MPI_SUM] into a zeroed receive buffer. *)
Definition reduce_sum (accs : list superacc) : superacc :=
  fold_left merge accs (repeat 0 BIN_COUNT).

(** Modelled from the spec: [exblas::reduce_mpi_cpu]
    ([mpi_accumulate.h] is missing), the protocol of the distributed
    combine: normalize every local accumulator, reduce inside each local
    sub-group and renormalize, reduce across the leaders and renormalize,
    and hand the merged accumulator to every process. *)
Definition reduce_mpi_cpu (acc : list (list superacc)) : list (list superacc) :=
  let normalized := map (map (Normalize IMIN IMAX)) acc in
  let per_group := map (fun g => Normalize IMIN IMAX (reduce_sum g)) normalized in
  let total := Normalize IMIN IMAX (reduce_sum per_group) in
  map (map (fun _ => total)) acc.

(** Modelled from the spec: the dense dispatch
    [doDot_superacc(x.data(), P.data(), y.data(), layout)] of the shared
    memory backend (a missing header): the three-array kernel on a fresh
    accumulator of [BIN_COUNT] words. *)
Definition doDot_superacc_dense (x P y : list double) : superacc :=
  exdot_cpu3 (Z.of_nat (length x)) x P y (repeat 0 BIN_COUNT).

(** [acc[0][k] += acc[i][k]] for [k] from [imin] while [k < imax];
    [k] is the index of the first bin of the lists. *)
Fixpoint add_range (k imin imax : nat) (a b : superacc) {struct a} : superacc :=
  match a, b with
  | u :: a', v :: b' =>
      (if (imin <=? k)%nat && (k <? imax)%nat then wrap64 (u + v) else u)
        :: add_range (S k) imin imax a' b'
  | _, _ => a
  end.

(** One round of the loop that folds [acc[i]] into [acc[0]]. *)
Definition fold_component (acc0 acci : superacc) : superacc :=
  let acc0 := Normalize IMIN IMAX acc0 in
  let acci := Normalize IMIN IMAX acci in
  add_range 0 IMIN IMAX acc0 acci.

(** [for( unsigned i=0; i<x.size(); i++) acc[i] = doDot_superacc( x[i], m, y[i], ...)]:
    the loop runs over the components of [x]; a [y] that runs out of
    components is indexed out of its bounds. *)
Fixpoint components (dot_i : Vector -> Vector -> outcome superacc)
         (xs ys : list Vector) {struct xs} : outcome (list superacc) :=
  match xs with
  | [] => Done []
  | xi :: xs' =>
      match ys with
      | [] => Undefined
      | yi :: ys' =>
          a <- dot_i xi yi ;;
          rest <- components dot_i xs' ys' ;;
          Done (a :: rest)
      end
  end.

Section Dispatch.
(** Whether the build defines [DG_DEBUG], and the calling process. *)
Variable DG_DEBUG : bool.
Variable me : rank.

Definition same_comm (x y : MPI_Vector) : bool :=
  if list_eq_dec Nat.eq_dec (communicator x) (communicator y) then true else false.

(** [doDot_superacc(x, P, y, MPIVectorTag, MPIVectorTag)]: the receive
    buffer of the calling process. *)
Definition doDot_superacc_mpi (x P y : MPI_Vector) : outcome superacc :=
  if DG_DEBUG && negb (same_comm x y && same_comm x P) then AssertFailed
  else
    let acc := map (fun g => map (fun t => doDot_superacc_dense (fst (fst t)) (snd (fst t)) (snd t))
                                 (zip3 (fst (fst g)) (snd (fst g)) (snd g)))
                   (zip3 (local_data x) (local_data P) (local_data y)) in
    let receive := reduce_mpi_cpu acc in
    match nth_error receive (fst me) with
    | Some g => match nth_error g (snd me) with
                | Some r => Done r
                | None => Undefined
                end
    | None => Undefined
    end.

(** [doDot_superacc(x, m, y, MPIVectorTag, get_data_layout<Vector1>())]:
    the overload is chosen by the layout of [x]; each overload asserts
    statically that [y] has the same layout. *)
Fixpoint doDot_superacc (x : Vector) (m : MPI_Vector) (y : Vector) {struct x}
  : outcome superacc :=
  match x, y with
  | MPIVec vx, MPIVec vy => doDot_superacc_mpi vx m vy
  | VecVec xs, VecVec ys =>
      if DG_DEBUG && negb (length xs =? length ys)%nat then AssertFailed
      else
        acc <- components (fun xi yi => doDot_superacc xi m yi) xs ys ;;
        match acc with
        | [] => Undefined
        | acc0 :: rest => Done (fold_left fold_component rest acc0)
        end
  | _, _ => StaticAssert
  end.

(** [doDot(x, P, y, MPIVectorTag)]. *)
Definition doDot (x : Vector) (P : MPI_Vector) (y : Vector) : outcome double :=
  acc <- doDot_superacc x P y ;; Done (Round acc).

(** [doDot(m, x, MPIVectorTag)]; the [Vector1] the source names in
    [get_data_layout<Vector1>] can only be the type of [x]. *)
Definition doDot2 (m : MPI_Vector) (x : Vector) : outcome double :=
  acc <- doDot_superacc x m x ;; Done (Round acc).

End Dispatch.

End Blas2Mpi.

Import Blas2Mpi.

(** ** The front end ([blas2.h]) *)

Module Blas2.

(** Modelled from the spec: [dg::blas1::scal(y, alpha)] ([blas1.h] is
    missing) scales every element of [y] by [alpha]. *)
Definition scal (y : list double) (alpha : double) : list double :=
  map (fun yi => mul alpha yi) y.

Section Symv.
(** The matrix type and the category dispatch behind [symv] and
    [gemv] (headers of the backend that are not among the sources). *)
Variable Precon : Type.
Variable doSymv doGemv :
  double -> Precon -> list double -> double -> list double -> list double.

(** [symv(alpha, P, x, beta, y)]: the value of [y] on return. *)
Definition symv (alpha : double) (P : Precon) (x : list double)
           (beta : double) (y : list double) : list double :=
  if eqb alpha zero then scal y alpha
  else doSymv alpha P x beta y.

(** [gemv(alpha, P, x, beta, y)]: the value of [y] on return. *)
Definition gemv (alpha : double) (P : Precon) (x : list double)
           (beta : double) (y : list double) : list double :=
  if eqb alpha zero then scal y alpha
  else doGemv alpha P x beta y.
End Symv.

(** [dot(x, m, y)] and [dot(m, x)] on MPI operands. *)
Definition dot (DG_DEBUG : bool) (me : rank) (x : Vector) (m : MPI_Vector) (y : Vector)
  : outcome double := doDot DG_DEBUG me x m y.

Definition dot2 (DG_DEBUG : bool) (me : rank) (m : MPI_Vector) (x : Vector)
  : outcome double := doDot2 DG_DEBUG me m x.

End Blas2.

(** ** Index maps of the MPI topology ([mpi_grid.h]) *)

Module MpiGrid.

(** What [aMPITopology2d] reads of a [Grid2d] ([grid.h] is not among the
    sources): the [unsigned] numbers [n], [Nx], [Ny]. *)
Record Grid2d : Type := { n : Z; Nx : Z; Ny : Z }.

(** [Grid2d::size()], documented in [mpi_grid.h] as [n()*n()*Nx()*Ny()]. *)
Definition grid_size (g : Grid2d) : Z := u32 (n g * n g * Nx g * Ny g).

(** The Cartesian communicator: [MPI_Cart_coords] and [MPI_Cart_rank],
    [None] standing for a status other than [MPI_SUCCESS]. *)
Record MPI_Comm : Type := {
  Cart_coords : Z -> option (Z * Z);
  Cart_rank : Z * Z -> option Z
}.

Record aMPITopology2d : Type := { g : Grid2d; l : Grid2d; comm : MPI_Comm }.

Definition size (t : aMPITopology2d) : Z := grid_size (g t).

(** [local2globalIdx(localIdx, PID, globalIdx)]: the returned [bool] and
    the value of [globalIdx] on return.  The products with [l.n()] are
    [unsigned] arithmetic.  (Division by [l.n()*l.Nx() = 0] is undefined
    in the source; it follows [Z.modulo] and [Z.div] here.) *)
Definition local2globalIdx (t : aMPITopology2d) (localIdx PID globalIdx : Z) : bool * Z :=
  if (localIdx <? 0) || (to_int (size t) <=? localIdx) then (bool_of_int (-1), globalIdx)
  else
    match Cart_coords (comm t) PID with
    | None => (false, globalIdx)
    | Some (c0, c1) =>
        let lIdx0 := to_int (u32 localIdx mod u32 (n (l t) * Nx (l t))) in
        let lIdx1 := to_int (u32 localIdx / u32 (n (l t) * Nx (l t))) in
        let gIdx0 := to_int (u32 (c0 * n (l t) * Nx (l t) + lIdx0)) in
        let gIdx1 := to_int (u32 (c1 * n (l t) * Ny (l t) + lIdx1)) in
        (true, to_int (u32 (gIdx1 * n (g t) * Nx (g t) + gIdx0)))
    end.

(** [global2localIdx(globalIdx, localIdx, PID)]: the returned [bool] and
    the values of [localIdx] and [PID] on return. *)
Definition global2localIdx (t : aMPITopology2d) (globalIdx localIdx PID : Z)
  : bool * Z * Z :=
  if (globalIdx <? 0) || (to_int (grid_size (g t)) <=? globalIdx)
  then (bool_of_int (-1), localIdx, PID)
  else
    let gIdx0 := to_int (u32 globalIdx mod u32 (n (g t) * Nx (g t))) in
    let gIdx1 := to_int (u32 globalIdx / u32 (n (g t) * Nx (g t))) in
    let c0 := to_int (u32 gIdx0 / u32 (n (l t) * Nx (l t))) in
    let c1 := to_int (u32 gIdx1 / u32 (n (l t) * Ny (l t))) in
    let lIdx0 := to_int (u32 gIdx0 mod u32 (n (l t) * Nx (l t))) in
    let lIdx1 := to_int (u32 gIdx1 mod u32 (n (l t) * Ny (l t))) in
    let localIdx := to_int (u32 (lIdx1 * n (l t) * Nx (l t) + lIdx0)) in
    match Cart_rank (comm t) (c0, c1) with
    | Some pid => (true, localIdx, pid)
    | None => (false, localIdx, PID)
    end.

End MpiGrid.

(** ** Vocabulary of the properties *)

(** Bins that are digits: between 0 and the radix. *)
Definition digit (b : Z) : Prop := 0 <= b < 2 ^ DIGITS.

(** Bins with room for a carry. *)
Definition roomy (b : Z) : Prop := Z.abs b <= 2 ^ 62.

(** Weight of the last bin. *)
Definition TOPW : Z := 2 ^ (DIGITS * 38).

(** The invariant of a superaccumulator in use. *)
Definition Inv (acc : superacc) : Prop :=
  length acc = BIN_COUNT /\ Forall roomy acc.

Definition small (b : Z) : Prop := Z.abs b <= 2 ^ 61.

(** Normalized form: 38 digits and a last bin that holds the rest. *)
Definition canonical (acc : superacc) : Prop :=
  exists lows top, acc = lows ++ [top] /\ length lows = 38%nat /\ Forall digit lows.

(** Sum of an integer weight over a list. *)
Definition sum_terms {A : Type} (f : A -> Z) (l : list A) : Z :=
  fold_right (fun x s => f x + s) 0 l.

(** Largest magnitude of one contribution, and the capacity of the bins. *)
Definition UNIT : Z := 2 ^ 16 * TOPW.

Definition CAP : Z := 2 ^ 61 * TOPW.

(** What one pair of the two-array kernel adds: head and tail of its
    product. *)
Definition pair_terms (ab : double * double) : Z :=
  contrib (fst (TwoProductFMA (fst ab) (snd ab)))
  + contrib (snd (TwoProductFMA (fst ab) (snd ab))).

(** The one double the three-array kernel accumulates for a triple: the
    product rounded after each of its two multiplications. *)
Definition triple_value (t : double * double * double) : double :=
  fma (fma (fst (fst t)) (snd (fst t)) zero) (snd t) zero.

Definition triple_term (t : double * double * double) : Z := contrib (triple_value t).

(** Bins of a sum of at most [j] normalized accumulators: the digits have
    added up, the last bin is free. *)
Definition summed (j : Z) (acc : superacc) : Prop :=
  exists lows top,
    acc = lows ++ [top] /\ length lows = 38%nat /\
    Forall (fun b => 0 <= b <= j * (2 ^ DIGITS - 1)) lows.

(** Sum of the values of the accumulators of all processes. *)
Definition total_value (acc : list (list superacc)) : Z :=
  sum_terms (fun g => sum_terms value g) acc.

Definition total_abs (acc : list (list superacc)) : Z :=
  sum_terms (fun g => sum_terms (fun a => Z.abs (value a)) g) acc.

(** What a local sub-group hands to its leader. *)
Definition group_result (g : list superacc) : superacc :=
  Normalize IMIN IMAX (reduce_sum (map (Normalize IMIN IMAX) g)).

(** Two distributed vectors laid out alike: the same sub-groups, the same
    processes, local containers of the same length. *)
Definition same_layout (x y : MPI_Vector) : Prop :=
  Forall2 (Forall2 (fun a b : list double => length a = length b))
          (local_data x) (local_data y).

(** The process [me] belongs to the communicator of [x]. *)
Definition member (me : rank) (x : MPI_Vector) : Prop :=
  exists g, nth_error (local_data x) (fst me) = Some g /\ (snd me < length g)%nat.

(** All elements of a distributed vector in one address space, in rank
    order. *)
Definition flatten (x : MPI_Vector) : list double := concat (concat (local_data x)).

(** The vector held by a single process. *)
Definition gather (x : MPI_Vector) : MPI_Vector := {| local_data := [[flatten x]] |}.

(** The local accumulators of all processes, as [doDot_superacc] computes
    them before the collective step. *)
Definition local_accs (x P y : MPI_Vector) : list (list superacc) :=
  map (fun g => map (fun t => doDot_superacc_dense (fst (fst t)) (snd (fst t)) (snd t))
                    (zip3 (fst (fst g)) (snd (fst g)) (snd g)))
      (zip3 (local_data x) (local_data P) (local_data y)).

(** The value of a finite double in units of [2^-1074], the spacing of
    the subnormal numbers: an integer for every double. *)
Definition scaled (x : double) : Z := num x * 2 ^ (ex x + 1074).

(** A finite double that the bins take in. *)
Definition representable (x : double) : bool :=
  match x with
  | S754_zero _ => true
  | S754_finite _ m e => (-1074 <=? e) && (e <=? 971) && (Zpos m <? 2 ^ 53)
  | _ => false
  end.

(** The product of two finite doubles neither overflows nor falls below
    the grid of the subnormal numbers. *)
Definition product_in_range (a b : double) : bool :=
  match a, b with
  | S754_finite _ _ ea, S754_finite _ _ eb => (-1074 <=? ea + eb) && is_finite (mul a b)
  | S754_zero _, S754_zero _ => true
  | S754_zero _, S754_finite _ _ _ => true
  | S754_finite _ _ _, S754_zero _ => true
  | _, _ => false
  end.

Definition b2z (b : bool) : Z := if b then 1 else 0.

(** What a shift record knows of the number [m] after [k] shifts. *)
Definition shifted (m k : Z) (r : shr_record) : Prop :=
  0 <= shr_m r /\
  2 ^ k * (2 * shr_m r + b2z (shr_r r)) <= 2 * m
    < 2 ^ k * (2 * shr_m r + b2z (shr_r r) + 1) /\
  (shr_s r = false <-> 2 * m = 2 ^ k * (2 * shr_m r + b2z (shr_r r))).

(** All triples [(x_i, P_i, y_i)] of a distributed dot, in rank order. *)
Definition triples (x P y : MPI_Vector) : list (double * double * double) :=
  zip3 (flatten x) (flatten P) (flatten y).

(** Operands the distributed dot is meant for: the three vectors are laid
    out alike, the two levels of the combine have a fan-in of at most 64,
    and the number of elements fits the [int] the kernel counts with. *)
Definition well_distributed (x P y : MPI_Vector) : Prop :=
  same_layout x P /\ same_layout x y /\
  (length (local_data x) <= 64)%nat /\
  Forall (fun g => (length g <= 64)%nat) (local_data x) /\
  Z.of_nat (length (flatten x)) < 2 ^ 31.

(** The two-array algorithm on chunks of any widths: for every chunk the
    heads, then the tails. *)
Definition accumulate_grouped (chunks : list (list (double * double))) (acc : superacc)
  : superacc :=
  fold_left (fun cache ch =>
               let '(x, r1) := TwoProductFMA8 (map fst ch) (map snd ch) in
               cache_Accumulate (cache_Accumulate cache x) r1)
            chunks acc.

(** The first [iters] chunks of eight pairs. *)
Fixpoint full_chunks (iters : nat) (ab : list (double * double))
  : list (list (double * double)) :=
  match iters with
  | O => []
  | S k => firstn 8 ab :: full_chunks k (skipn 8 ab)
  end.

(** The chunks of the kernel for [N] pairs: the full chunks of eight, and
    for a remainder one partial chunk, filled up with zeros. *)
Definition kernel_chunks (N : Z) (ab : list (double * double))
  : list (list (double * double)) :=
  full_chunks (Z.to_nat (N / 8)) ab
  ++ (if N mod 8 =? 0 then []
      else [firstn (Z.to_nat (N mod 8)) (skipn (Z.to_nat (8 * (N / 8))) ab)
            ++ repeat (zero, zero) (8 - Z.to_nat (N mod 8))]).

(** A pair of doubles whose product the error-free transform splits
    exactly. *)
Definition exact_pair (ab : double * double) : Prop :=
  valid (fst ab) = true /\ valid (snd ab) = true /\
  product_in_range (fst ab) (snd ab) = true.

(** The triple product as the specification words it, a second
    definition to compare the kernel with: the error-free transform of
    [a*b], then of [head_ab * c]; head and tail of the latter are
    accumulated, and of the tail of [a*b] carried through [c] all but its
    own tail. *)
Definition claimed_triple_terms (t : double * double * double) : list double :=
  let '(h1, t1) := TwoProductFMA (fst (fst t)) (snd (fst t)) in
  let '(h2, t2) := TwoProductFMA h1 (snd t) in
  [h2; t2; fst (TwoProductFMA t1 (snd t))].

(** The three-array reduction with the terms of the specification. *)
Definition ExDOTFPE_cpu3_claimed (N : Z) (a b c : list double) (acc : superacc) : superacc :=
  fold_left Accumulate
            (flat_map claimed_triple_terms (firstn (Z.to_nat N) (combine (combine a b) c)))
            acc.

(** ** Concrete inputs *)

Definition d1 : double := of_Z 1.

Definition d2 : double := of_Z 2.

Definition d3 : double := of_Z 3.

(** A vector spread over three processes in two sub-groups. *)
Definition x_dist : MPI_Vector := {| local_data := [[[d1; d2]; [d3]]; [[d2; d2; d1]]] |}.

Definition P_dist : MPI_Vector := {| local_data := [[[d1; d1]; [d2]]; [[d1; d3; d1]]] |}.

Definition y_dist : MPI_Vector := {| local_data := [[[d3; d1]; [d1]]; [[d2; d1; d1]]] |}.

Definition d1e16 : double := of_Z (10 ^ 16).

Definition crafted : list double := [d1e16; d1; opp d1e16; d1; d1; opp d1].

Definition ones : list double := repeat d1 6.

Definition tiny : double := of_Z_scaled 1 (-600).

Definition b_eps : double := of_Z_scaled (2 ^ 52 + 1) (-52).

(** A vector of one element on a single process. *)
Definition vec1 (d : double) : MPI_Vector := {| local_data := [[[d]]] |}.

Definition huge : double := of_Z_scaled 1 1010.

Definition grid4 : MpiGrid.Grid2d := {| MpiGrid.n := 1; MpiGrid.Nx := 2; MpiGrid.Ny := 2 |}.

Definition one_process : MpiGrid.MPI_Comm :=
  {| MpiGrid.Cart_coords := fun pid => if pid =? 0 then Some (0, 0) else None;
     MpiGrid.Cart_rank := fun c => if (fst c =? 0) && (snd c =? 0) then Some 0 else None |}.

Definition topo4 : MpiGrid.aMPITopology2d :=
  {| MpiGrid.g := grid4; MpiGrid.l := grid4; MpiGrid.comm := one_process |}.

(* ===================================================================== *)
(** * Part II: properties                                                 *)
(* ===================================================================== *)

(** ** Index maps: the early exit on an index out of range *)

Section IndexMaps.
Import MpiGrid.

Lemma to_int_le (z : Z) : 0 <= z -> to_int z <= z.
Proof.
  intros Hz. unfold to_int.
  pose proof (Z.mod_le (z + 2 ^ 31) (2 ^ 32)) as H.
  lia.
Qed.

Lemma u32_nonneg (z : Z) : 0 <= u32 z.
Proof. unfold u32. apply Z.mod_pos_bound. lia. Qed.

(** C10. For every [localIdx] outside [0, size()), [local2globalIdx]
    returns [true] (its [return -1] converted to [bool]) and leaves
    [globalIdx] as it was; [global2localIdx] does the same for a
    [globalIdx] outside the range, leaving [localIdx] and [PID] as they
    were.  A call with an index in the range and a valid [PID] returns
    [true] as well, so the returned [bool] does not tell the two apart. *)
Theorem idx_out_of_range_returns_true :
  forall (t : aMPITopology2d) (idx PID out1 out2 : Z),
    idx < 0 \/ size t <= idx ->
    local2globalIdx t idx PID out1 = (true, out1) /\
    global2localIdx t idx out1 out2 = (true, out1, out2) /\
    (forall idx' c,
        0 <= idx' < to_int (size t) -> Cart_coords (comm t) PID = Some c ->
        fst (local2globalIdx t idx' PID out1) = true).
Proof.
  intros t idx PID out1 out2 Hout.
  assert (Hexit : (idx <? 0) || (to_int (size t) <=? idx) = true).
  { destruct Hout as [Hneg | Hbig].
    - apply orb_true_iff. left. now apply Z.ltb_lt.
    - apply orb_true_iff. right. apply Z.leb_le.
      pose proof (to_int_le (size t) (u32_nonneg _)). lia. }
  unfold local2globalIdx, global2localIdx.
  fold (size t). rewrite Hexit. split; [reflexivity|]. split; [reflexivity|].
  intros idx' [c0 c1] Hin Hc.
  replace (idx' <? 0) with false by (symmetry; apply Z.ltb_ge; lia).
  replace (to_int (size t) <=? idx') with false by (symmetry; apply Z.leb_gt; lia).
  cbn [orb]. rewrite Hc. reflexivity.
Qed.

Lemma idx_out_of_range_witness :
  local2globalIdx topo4 7 0 42 = (true, 42) /\
  global2localIdx topo4 7 42 43 = (true, 42, 43) /\
  (forall idx' c,
      0 <= idx' < to_int (size topo4) -> Cart_coords (comm topo4) 0 = Some c ->
      fst (local2globalIdx topo4 idx' 0 42) = true).
Proof.
  apply (idx_out_of_range_returns_true topo4 7 0 42 43).
  right. vm_compute. discriminate.
Defined.

End IndexMaps.

(** ** Bins: wrap-around, value, carries *)

Section Bins.

Lemma wrap64_id (z : Z) : - 2 ^ 63 <= z < 2 ^ 63 -> wrap64 z = z.
Proof.
  intros Hz. unfold wrap64.
  rewrite Z.mod_small by lia. lia.
Qed.

Lemma radix_eq : 2 ^ DIGITS = 72057594037927936.
Proof. reflexivity. Qed.

Lemma value_cons (b : Z) (rest : superacc) :
  value (b :: rest) = b + 2 ^ DIGITS * value rest.
Proof. reflexivity. Qed.

Lemma value_app (l1 l2 : superacc) :
  value (l1 ++ l2) = value l1 + 2 ^ (DIGITS * Z.of_nat (length l1)) * value l2.
Proof.
  induction l1 as [|b l1 IH].
  - cbn [app length value Z.of_nat]. rewrite Z.mul_0_r, Z.pow_0_r. lia.
  - cbn [app length]. rewrite !value_cons, IH.
    rewrite Nat2Z.inj_succ, Z.mul_succ_r, Z.pow_add_r by (unfold DIGITS; lia).
    ring.
Qed.

Lemma value_digits_bound (l : superacc) :
  Forall digit l -> 0 <= value l < 2 ^ (DIGITS * Z.of_nat (length l)).
Proof.
  induction 1 as [|b l Hb Hl IH].
  - cbn. lia.
  - cbn [length]. rewrite value_cons.
    rewrite Nat2Z.inj_succ, Z.mul_succ_r, Z.pow_add_r by (unfold DIGITS; lia).
    unfold digit in Hb.
    set (W := 2 ^ (DIGITS * Z.of_nat (length l))) in *.
    rewrite radix_eq in *. nia.
Qed.

Lemma carry_prop_length (k : nat) (c : Z) (acc : superacc) :
  length (carry_prop k c acc) = length acc.
Proof.
  revert k c. induction acc as [|b rest IH]; intros k c; [reflexivity|].
  destruct k; cbn [carry_prop length]; [reflexivity|].
  now rewrite IH.
Qed.

Lemma carry_step (b c : Z) :
  roomy b -> Z.abs c <= 2 ^ 7 ->
  wrap64 (b + c) = b + c /\
  Z.abs (Z.shiftr (b + c) DIGITS) <= 2 ^ 7 /\
  digit (b + c - Z.shiftl (Z.shiftr (b + c) DIGITS) DIGITS) /\
  b + c - Z.shiftl (Z.shiftr (b + c) DIGITS) DIGITS
    + 2 ^ DIGITS * Z.shiftr (b + c) DIGITS = b + c.
Proof.
  unfold roomy, digit. intros Hb Hc.
  rewrite wrap64_id by lia.
  rewrite Z.shiftr_div_pow2, Z.shiftl_mul_pow2 by (unfold DIGITS; lia).
  rewrite radix_eq.
  pose proof (Z.div_mod (b + c) 72057594037927936 ltac:(lia)) as Hdm.
  pose proof (Z.mod_pos_bound (b + c) 72057594037927936 ltac:(lia)) as Hm.
  repeat split; try lia.
Qed.

(** Carry propagation over [k] bins keeps the value, turns the bins it
    passes into digits and leaves the bins behind the range alone. *)
Lemma carry_prop_spec (k : nat) :
  forall (acc : superacc) (c : Z),
    (k < length acc)%nat -> Forall roomy acc -> Z.abs c <= 2 ^ 7 ->
    value (carry_prop k c acc) = value acc + c /\
    Forall digit (firstn k (carry_prop k c acc)) /\
    skipn (S k) (carry_prop k c acc) = skipn (S k) acc.
Proof.
  induction k as [|k IH]; intros acc c Hlen Hacc Hc.
  - destruct acc as [|b rest]; [cbn in Hlen; lia|].
    cbn [carry_prop firstn skipn]. inversion Hacc; subst.
    rewrite !value_cons, wrap64_id by (unfold roomy in *; lia).
    repeat split; [lia | constructor].
  - destruct acc as [|b rest]; [cbn in Hlen; lia|].
    inversion Hacc as [|? ? Hb Hrest]; subst.
    cbn [carry_prop]. cbv zeta.
    destruct (carry_step b c Hb Hc) as (Ht & Hc' & Hd & Hsum).
    cbn [length] in Hlen. rewrite Ht.
    destruct (IH rest (Z.shiftr (b + c) DIGITS) ltac:(lia) Hrest Hc')
      as (Hv & Hdig & Hskip).
    cbn [firstn]. rewrite !value_cons, Hv.
    repeat split.
    + lia.
    + constructor; assumption.
    + exact Hskip.
Qed.

Lemma TOPW_pos : 0 < TOPW.
Proof. unfold TOPW. apply Z.pow_pos_nonneg; unfold DIGITS; lia. Qed.

Lemma small_roomy (b : Z) : small b -> roomy b.
Proof. unfold small, roomy. lia. Qed.

Lemma digit_small (b : Z) : digit b -> small b.
Proof. unfold digit, small. rewrite radix_eq. lia. Qed.

Lemma canonical_value (lows : superacc) (top : Z) :
  length lows = 38%nat -> Forall digit lows ->
  value (lows ++ [top]) = value lows + TOPW * top /\ 0 <= value lows < TOPW.
Proof.
  intros Hlen Hdig. rewrite value_app, Hlen.
  pose proof (value_digits_bound lows Hdig) as Hb. rewrite Hlen in Hb.
  change (2 ^ (DIGITS * Z.of_nat 38)) with TOPW in *.
  rewrite value_cons. cbn [value]. split; [ring | exact Hb].
Qed.

Lemma canonical_top_small (lows : superacc) (top : Z) :
  length lows = 38%nat -> Forall digit lows ->
  Z.abs (value (lows ++ [top])) <= 2 ^ 61 * TOPW -> small top.
Proof.
  intros Hlen Hdig Hv.
  destruct (canonical_value lows top Hlen Hdig) as [Heq Hlow].
  rewrite Heq in Hv. pose proof TOPW_pos as HW. unfold small.
  destruct (Z_le_gt_dec (Z.abs top) (2 ^ 61)) as [|Hgt]; [assumption|exfalso].
  assert (Hcase : 2 ^ 61 + 1 <= top \/ top <= - 2 ^ 61 - 1) by lia.
  destruct Hcase as [Hp | Hn].
  - assert (TOPW * (2 ^ 61 + 1) <= TOPW * top) by (apply Z.mul_le_mono_nonneg_l; lia).
    lia.
  - assert (TOPW * top <= TOPW * (- 2 ^ 61 - 1)) by (apply Z.mul_le_mono_nonneg_l; lia).
    lia.
Qed.

Lemma Normalize_spec (acc : superacc) :
  Inv acc ->
  value (Normalize IMIN IMAX acc) = value acc /\ canonical (Normalize IMIN IMAX acc).
Proof.
  intros [Hlen Hroomy].
  unfold Normalize, IMIN, IMAX. cbn [firstn skipn app Nat.sub].
  destruct (carry_prop_spec 38 acc 0) as (Hv & Hdig & Hskip);
    [rewrite Hlen; unfold BIN_COUNT; lia | assumption | lia |].
  split; [lia|].
  pose proof (carry_prop_length 38 0 acc) as Hl. rewrite Hlen in Hl.
  set (r := carry_prop 38 0 acc) in *.
  rewrite <- (firstn_skipn 38 r).
  assert (Hlast : length (skipn 38 r) = 1%nat)
    by (rewrite length_skipn, Hl; reflexivity).
  destruct (skipn 38 r) as [|top [|? ?]]; try discriminate.
  exists (firstn 38 r), top. repeat split.
  - rewrite length_firstn, Hl. reflexivity.
  - exact Hdig.
Qed.

Lemma canonical_length (acc : superacc) : canonical acc -> length acc = BIN_COUNT.
Proof.
  intros (lows & top & -> & Hlen & _). rewrite length_app, Hlen. reflexivity.
Qed.

Lemma canonical_small (acc : superacc) :
  canonical acc -> Z.abs (value acc) <= 2 ^ 61 * TOPW -> Forall small acc.
Proof.
  intros (lows & top & -> & Hlen & Hdig) Hv.
  apply Forall_app. split.
  - eapply Forall_impl; [|exact Hdig]. apply digit_small.
  - constructor; [|constructor]. eapply canonical_top_small; eassumption.
Qed.

Lemma canonical_Inv (acc : superacc) :
  canonical acc -> Z.abs (value acc) <= 2 ^ 61 * TOPW -> Inv acc.
Proof.
  intros Hc Hv. split; [now apply canonical_length|].
  eapply Forall_impl; [|now apply canonical_small]. apply small_roomy.
Qed.

Lemma add_int_length (acc : superacc) : forall z, length (add_int z acc) = length acc.
Proof.
  induction acc as [|b [|b' rest] IH]; intros z; try reflexivity.
  change (add_int z (b :: b' :: rest))
    with (wrap64 (b + Z.rem z (2 ^ DIGITS)) :: add_int (Z.quot z (2 ^ DIGITS)) (b' :: rest)).
  cbn [length]. now rewrite IH.
Qed.

(** Adding an integer to small bins: the value grows by that integer
    and no bin wraps, as long as the last bin has room for its share. *)
Lemma add_int_spec (acc : superacc) :
  forall z,
    acc <> [] -> Forall small acc ->
    Z.abs (Z.quot z (2 ^ (DIGITS * Z.of_nat (length acc - 1)))) <= 2 ^ 61 ->
    value (add_int z acc) = value acc + z /\ Forall roomy (add_int z acc).
Proof.
  induction acc as [|b [|b' rest] IH]; intros z Hne Hsmall Htop.
  - contradiction.
  - cbn [length Nat.sub Z.of_nat] in Htop.
    rewrite Z.mul_0_r, Z.pow_0_r, Z.quot_1_r in Htop.
    inversion Hsmall as [|? ? Hb _]; subst. unfold small in Hb.
    cbn [add_int]. rewrite wrap64_id by lia. rewrite !value_cons. cbn [value].
    split; [ring|]. constructor; [unfold roomy; lia | constructor].
  - change (add_int z (b :: b' :: rest))
      with (wrap64 (b + Z.rem z (2 ^ DIGITS)) :: add_int (Z.quot z (2 ^ DIGITS)) (b' :: rest)).
    inversion Hsmall as [|? ? Hb Hrest]; subst. unfold small in Hb.
    pose proof (Z.rem_bound_abs z (2 ^ DIGITS)) as Hrem.
    rewrite radix_eq in *.
    specialize (Hrem ltac:(lia)).
    pose proof (Z.quot_rem' z 72057594037927936) as Hqr.
    rewrite wrap64_id by lia.
    destruct (IH (Z.quot z 72057594037927936)) as [Hv Hr];
      [discriminate | assumption | |].
    + rewrite Z.quot_quot by (try lia; apply Z.pow_nonzero; unfold DIGITS; lia).
      rewrite <- radix_eq, <- Z.pow_add_r by (unfold DIGITS; lia).
      replace (DIGITS + DIGITS * Z.of_nat (length (b' :: rest) - 1))
        with (DIGITS * Z.of_nat (length (b :: b' :: rest) - 1)); [exact Htop|].
      cbn [length Nat.sub]. rewrite Nat.sub_0_r. lia.
    + rewrite (value_cons _ (add_int _ _)), Hv, (value_cons b).
      rewrite radix_eq. split; [lia|].
      constructor; [unfold roomy; lia | assumption].
Qed.

Lemma contrib_bound (x : double) : Z.abs (contrib x) < 2 ^ 16 * TOPW.
Proof.
  pose proof TOPW_pos as HW.
  destruct x as [s | s | | s m e]; cbn [contrib]; try lia.
  destruct ((OFFSET <=? e) && (Z.pos m <? 2 ^ 53) && (e <=? 971)) eqn:Hg;
    [|cbn; lia].
  apply andb_true_iff in Hg. destruct Hg as [Hg He].
  apply andb_true_iff in Hg. destruct Hg as [Ho Hm].
  apply Z.leb_le in Ho, He. apply Z.ltb_lt in Hm.
  assert (Hpow : 2 ^ (e - OFFSET) <= 2 ^ 2091)
    by (apply Z.pow_le_mono_r; unfold OFFSET, F_WORDS, DIGITS in *; lia).
  assert (Hpos : 0 < 2 ^ (e - OFFSET))
    by (apply Z.pow_pos_nonneg; unfold OFFSET, F_WORDS, DIGITS in *; lia).
  assert (HT : 2 ^ 16 * TOPW = 2 ^ 53 * 2 ^ 2091).
  { unfold TOPW, DIGITS. rewrite <- !Z.pow_add_r by lia. reflexivity. }
  rewrite HT.
  assert (Habs : Z.abs (cond_Zopp s (Z.pos m * 2 ^ (e - OFFSET))) = Z.pos m * 2 ^ (e - OFFSET)).
  { destruct s; cbn [cond_Zopp]; [rewrite Z.abs_opp|]; apply Z.abs_eq; lia. }
  rewrite Habs.
  apply Z.le_lt_trans with (Z.pos m * 2 ^ 2091).
  - apply Z.mul_le_mono_nonneg_l; lia.
  - apply Z.mul_lt_mono_pos_r; [apply Z.pow_pos_nonneg|]; lia.
Qed.

Lemma quot_share_bound (z : Z) :
  Z.abs z < 2 ^ 16 * TOPW -> Z.abs (Z.quot z TOPW) <= 2 ^ 61.
Proof.
  intros Hz. pose proof TOPW_pos as HW.
  rewrite <- Z.quot_abs by lia.
  rewrite (Z.abs_eq TOPW) by lia.
  assert (Z.quot (Z.abs z) TOPW < 2 ^ 16)
    by (apply Z.quot_lt_upper_bound; lia).
  pose proof (Z.quot_pos (Z.abs z) TOPW ltac:(lia) ltac:(lia)). lia.
Qed.

(** [Accumulate] adds the contribution of its argument to the value
    and keeps the invariant, whatever the state of the bins. *)
Lemma Accumulate_spec (acc : superacc) (x : double) :
  Inv acc -> Z.abs (value acc) <= 2 ^ 61 * TOPW ->
  value (Accumulate acc x) = value acc + contrib x /\ Inv (Accumulate acc x).
Proof.
  intros HInv Hv. unfold Accumulate.
  set (acc1 := if needs_normalize acc then Normalize IMIN IMAX acc else acc).
  assert (H1 : value acc1 = value acc /\ Forall small acc1 /\ length acc1 = BIN_COUNT).
  { unfold acc1, needs_normalize.
    destruct (forallb (fun b => Z.abs b <=? 2 ^ 61) acc) eqn:Hall; cbn [negb].
    - split; [reflexivity|]. split; [|apply HInv].
      apply Forall_forall. intros b Hb.
      rewrite forallb_forall in Hall. apply Z.leb_le. now apply Hall.
    - destruct (Normalize_spec acc HInv) as [Hval Hcan]. split; [exact Hval|].
      split; [apply canonical_small; [assumption | now rewrite Hval]
             | now apply canonical_length]. }
  destruct H1 as (Hval & Hsmall & Hlen).
  destruct (add_int_spec acc1 (contrib x)) as [Hadd Hroomy].
  - intros ->. discriminate.
  - assumption.
  - rewrite Hlen. change (2 ^ (DIGITS * Z.of_nat (BIN_COUNT - 1))) with TOPW.
    apply quot_share_bound, contrib_bound.
  - split; [lia|]. split; [now rewrite add_int_length | assumption].
Qed.

End Bins.

(** ** What the local kernels leave in the accumulator *)

Section Sums.
Context {A : Type} (f : A -> Z).

Lemma sum_terms_cons (x : A) (l : list A) : sum_terms f (x :: l) = f x + sum_terms f l.
Proof. reflexivity. Qed.

Lemma sum_terms_app (l1 l2 : list A) :
  sum_terms f (l1 ++ l2) = sum_terms f l1 + sum_terms f l2.
Proof.
  induction l1 as [|x l1 IH]; cbn [app]; [reflexivity|].
  rewrite !sum_terms_cons, IH. ring.
Qed.

Lemma sum_terms_perm (l1 l2 : list A) :
  Permutation l1 l2 -> sum_terms f l1 = sum_terms f l2.
Proof.
  induction 1; rewrite ?sum_terms_cons in *; lia.
Qed.

Lemma sum_terms_zero (l : list A) :
  (forall x, In x l -> f x = 0) -> sum_terms f l = 0.
Proof.
  induction l as [|x l IH]; intros Hz; [reflexivity|].
  rewrite sum_terms_cons, Hz, IH; [reflexivity | | now left].
  intros y Hy. apply Hz. now right.
Qed.
End Sums.

Lemma sum_terms_map {A B : Type} (g : A -> B) (f : B -> Z) (l : list A) :
  sum_terms f (map g l) = sum_terms (fun x => f (g x)) l.
Proof.
  induction l as [|x l IH]; [reflexivity|].
  cbn [map]. rewrite !sum_terms_cons, IH. reflexivity.
Qed.

Section Folds.

Lemma UNIT_pos : 0 < UNIT.
Proof. unfold UNIT. pose proof TOPW_pos. lia. Qed.

(** Feeding a list of doubles, one [Accumulate] each. *)
Lemma fold_Accumulate_spec (xs : list double) :
  forall acc,
    Inv acc -> Z.abs (value acc) + Z.of_nat (length xs) * UNIT <= CAP ->
    value (fold_left Accumulate xs acc) = value acc + sum_terms contrib xs /\
    Inv (fold_left Accumulate xs acc) /\
    Z.abs (value (fold_left Accumulate xs acc))
      <= Z.abs (value acc) + Z.of_nat (length xs) * UNIT.
Proof.
  pose proof UNIT_pos as HU.
  induction xs as [|x xs IH]; intros acc HInv Hcap.
  - cbn [fold_left sum_terms fold_right length Z.of_nat].
    split; [lia | split; [exact HInv | lia]].
  - cbn [length] in Hcap. rewrite Nat2Z.inj_succ in Hcap.
    cbn [fold_left]. rewrite sum_terms_cons.
    destruct (Accumulate_spec acc x HInv) as [Hv HInv']; [unfold CAP in *; nia|].
    pose proof (contrib_bound x) as Hx. fold UNIT in Hx.
    destruct (IH (Accumulate acc x) HInv') as (Hv2 & HInv2 & Hb2); [nia|].
    cbn [length]. rewrite Nat2Z.inj_succ.
    split; [lia | split; [exact HInv2 | nia]].
Qed.

Lemma TwoProductFMA8_heads (va vb : Vec8d) :
  fst (TwoProductFMA8 va vb)
  = map (fun ab => fst (TwoProductFMA (fst ab) (snd ab))) (combine va vb).
Proof. unfold TwoProductFMA8. cbn [fst]. now rewrite map_map. Qed.

Lemma TwoProductFMA8_tails (va vb : Vec8d) :
  snd (TwoProductFMA8 va vb)
  = map (fun ab => snd (TwoProductFMA (fst ab) (snd ab))) (combine va vb).
Proof. unfold TwoProductFMA8. cbn [snd]. now rewrite map_map. Qed.

Lemma sum_heads_tails (l : list (double * double)) :
  sum_terms contrib (map (fun ab => fst (TwoProductFMA (fst ab) (snd ab))) l)
  + sum_terms contrib (map (fun ab => snd (TwoProductFMA (fst ab) (snd ab))) l)
  = sum_terms pair_terms l.
Proof.
  induction l as [|ab l IH]; [reflexivity|].
  cbn [map]. rewrite !sum_terms_cons. unfold pair_terms at 1. lia.
Qed.

(** One chunk of the two-array kernel: heads, then tails. *)
Lemma chunk2_spec (va vb : Vec8d) (cache : superacc) :
  Inv cache ->
  Z.abs (value cache) + 2 * Z.of_nat (length (combine va vb)) * UNIT <= CAP ->
  let cache' := cache_Accumulate (cache_Accumulate cache (fst (TwoProductFMA8 va vb)))
                                 (snd (TwoProductFMA8 va vb)) in
  value cache' = value cache + sum_terms pair_terms (combine va vb) /\
  Inv cache' /\
  Z.abs (value cache') <= Z.abs (value cache) + 2 * Z.of_nat (length (combine va vb)) * UNIT.
Proof.
  intros HInv Hcap. cbv zeta. cbn [cache_Accumulate FPExpansionVect].
  rewrite TwoProductFMA8_heads, TwoProductFMA8_tails.
  set (l := combine va vb) in *.
  assert (Hn : 0 <= Z.of_nat (length l) * UNIT)
    by (pose proof UNIT_pos; apply Z.mul_nonneg_nonneg; lia).
  destruct (fold_Accumulate_spec
              (map (fun ab => fst (TwoProductFMA (fst ab) (snd ab))) l) cache HInv)
    as (Hv1 & HInv1 & Hb1); [rewrite length_map; lia|].
  rewrite length_map in Hb1.
  destruct (fold_Accumulate_spec
              (map (fun ab => snd (TwoProductFMA (fst ab) (snd ab))) l) _ HInv1)
    as (Hv2 & HInv2 & Hb2); [rewrite length_map; lia|].
  rewrite length_map in Hb2.
  pose proof (sum_heads_tails l).
  split; [lia | split; [exact HInv2 | lia]].
Qed.

Lemma combine_skipn {A B : Type} (n : nat) :
  forall (l : list A) (l' : list B),
    skipn n (combine l l') = combine (skipn n l) (skipn n l').
Proof.
  induction n as [|n IH]; intros l l'; [reflexivity|].
  destruct l as [|x l]; [reflexivity|].
  destruct l' as [|y l']; [cbn; now destruct (skipn n l) | cbn; apply IH].
Qed.

Lemma firstn_plus {A : Type} (n m : nat) (l : list A) :
  firstn (n + m) l = firstn n l ++ firstn m (skipn n l).
Proof.
  revert l. induction n as [|n IH]; intros l; [reflexivity|].
  destruct l as [|x l]; cbn [Nat.add firstn skipn app].
  - now rewrite firstn_nil.
  - now rewrite IH.
Qed.

(** The lanes a full chunk at index [i] works on. *)
Lemma chunk_pairs (a b : list double) (i : Z) :
  combine (load (offset a i)) (load (offset b i))
  = firstn 8 (skipn (Z.to_nat i) (combine a b)).
Proof. unfold load, offset. now rewrite <- combine_firstn, combine_skipn. Qed.

Lemma loop2_spec (a b : list double) (iters : nat) :
  forall (i : Z) (cache : superacc),
    0 <= i -> Inv cache ->
    Z.abs (value cache) + 16 * Z.of_nat iters * UNIT <= CAP ->
    value (loop2 iters i a b cache)
    = value cache
      + sum_terms pair_terms (firstn (8 * iters) (skipn (Z.to_nat i) (combine a b))) /\
    Inv (loop2 iters i a b cache) /\
    Z.abs (value (loop2 iters i a b cache))
      <= Z.abs (value cache) + 16 * Z.of_nat iters * UNIT.
Proof.
  pose proof UNIT_pos as HU.
  induction iters as [|k IH]; intros i cache Hi HInv Hcap.
  - rewrite Nat.mul_0_r. cbn [loop2 firstn sum_terms fold_right Z.of_nat].
    split; [lia | split; [exact HInv | lia]].
  - cbn [loop2].
    pose proof (chunk2_spec (load (offset a i)) (load (offset b i)) cache HInv) as Hchunk.
    destruct (TwoProductFMA8 (load (offset a i)) (load (offset b i))) as [x r1].
    cbn [fst snd] in Hchunk. cbv zeta in Hchunk.
    rewrite chunk_pairs in Hchunk.
    set (chunk := firstn 8 (skipn (Z.to_nat i) (combine a b))) in *.
    assert (Hlen : (length chunk <= 8)%nat) by apply firstn_le_length.
    rewrite Nat2Z.inj_succ in Hcap.
    destruct Hchunk as (Hv & HInv' & Hb); [nia|].
    destruct (IH (i + 8) _ ltac:(lia) HInv') as (Hv2 & HInv2 & Hb2); [nia|].
    replace (8 * S k)%nat with (8 + 8 * k)%nat by lia.
    rewrite firstn_plus, sum_terms_app, skipn_skipn.
    replace (Z.to_nat (i + 8)) with (8 + Z.to_nat i)%nat in Hv2 by lia.
    fold chunk. rewrite Nat2Z.inj_succ.
    split; [lia | split; [exact HInv2 | nia]].
Qed.

Lemma round_down8_spec (N : Z) : 0 <= N < 2 ^ 31 -> round_down8 N = 8 * (N / 8).
Proof.
  intros HN. unfold round_down8.
  rewrite (Z.mod_small N) by lia.
  assert (Hland : Z.land N (2 ^ 64 - 8) = 8 * (N / 8)).
  { apply Z.bits_inj'. intros k Hk.
    rewrite Z.land_spec.
    replace (8 * (N / 8)) with (Z.shiftl (Z.shiftr N 3) 3)
      by (rewrite Z.shiftl_mul_pow2, Z.shiftr_div_pow2 by lia; change (2 ^ 3) with 8; ring).
    change (2 ^ 64 - 8) with (Z.shiftl (Z.ones 61) 3).
    rewrite !Z.shiftl_spec by lia.
    destruct (Z_lt_ge_dec k 3) as [Hlt | Hge].
    - rewrite (Z.testbit_neg_r _ (k - 3)) by lia.
      rewrite (Z.testbit_neg_r _ (k - 3)) by lia. apply andb_false_r.
    - rewrite Z.shiftr_spec by lia. replace (k - 3 + 3) with k by lia.
      destruct (Z_lt_ge_dec (k - 3) 61) as [Hin | Hout].
      + rewrite Z.ones_spec_low by lia. apply andb_true_r.
      + rewrite Z.ones_spec_high by lia. rewrite andb_false_r.
        destruct (Z.eq_dec N 0) as [-> | HN0]; [now rewrite Z.bits_0|].
        rewrite Z.bits_above_log2; [reflexivity | lia |].
        assert (Z.log2 N < 31) by (apply Z.log2_lt_pow2; lia). lia. }
  rewrite Hland. unfold to_int.
  pose proof (Z.mul_div_le N 8 ltac:(lia)).
  pose proof (Z.div_pos N 8 ltac:(lia) ltac:(lia)).
  rewrite Z.mod_small by lia. lia.
Qed.

Lemma combine_app {A B : Type} (l1 l2 : list A) (l1' l2' : list B) :
  length l1 = length l1' ->
  combine (l1 ++ l2) (l1' ++ l2') = combine l1 l1' ++ combine l2 l2'.
Proof.
  revert l1'. induction l1 as [|x l1 IH]; intros [|y l1'] Hlen; try discriminate.
  - reflexivity.
  - cbn [app combine]. f_equal. apply IH. now injection Hlen.
Qed.

Lemma combine_repeat {A B : Type} (x : A) (y : B) (n : nat) :
  combine (repeat x n) (repeat y n) = repeat (x, y) n.
Proof. induction n as [|n IH]; [reflexivity|]. cbn. now rewrite IH. Qed.

(** The lanes of the partial chunk: [k] pairs of the arrays and pairs of
    zeros. *)
Lemma partial_pairs (a b : list double) (k : Z) (r : nat) :
  0 <= k <= 8 -> (r + Z.to_nat k <= length a)%nat -> (r + Z.to_nat k <= length b)%nat ->
  combine (load_partial k (skipn r a)) (load_partial k (skipn r b))
  = firstn (Z.to_nat k) (skipn r (combine a b))
      ++ repeat (zero, zero) (8 - Z.to_nat k).
Proof.
  intros Hk Ha Hb. unfold load_partial.
  replace (Z.max 0 (Z.min k 8)) with k by lia.
  rewrite combine_app, combine_repeat.
  - now rewrite <- combine_firstn, combine_skipn.
  - rewrite !length_firstn, !length_skipn. lia.
Qed.

Lemma zero_pairs_sum (n : nat) : sum_terms pair_terms (repeat (zero, zero) n) = 0.
Proof.
  apply sum_terms_zero. intros x Hx. apply repeat_spec in Hx. subst x. reflexivity.
Qed.

(** The two-array kernel adds head and tail of every product of the
    first [N] pairs to the accumulator it is handed. *)
Lemma scale_le (x y : Z) : x <= y -> x * UNIT <= y * UNIT.
Proof. intros H. pose proof UNIT_pos. now apply Z.mul_le_mono_nonneg_r; [lia|]. Qed.

(** The two-array kernel adds head and tail of every product of the
    first [N] pairs to the accumulator it is handed. *)
Lemma ExDOTFPE_cpu_spec (N : Z) (a b : list double) (acc : superacc) :
  0 <= N < 2 ^ 31 ->
  (Z.to_nat N <= length a)%nat -> (Z.to_nat N <= length b)%nat ->
  Inv acc -> Z.abs (value acc) + (2 * N + 16) * UNIT <= CAP ->
  value (ExDOTFPE_cpu N a b acc)
  = value acc + sum_terms pair_terms (firstn (Z.to_nat N) (combine a b)) /\
  Inv (ExDOTFPE_cpu N a b acc) /\
  Z.abs (value (ExDOTFPE_cpu N a b acc)) <= Z.abs (value acc) + (2 * N + 16) * UNIT.
Proof.
  intros HN Ha Hb HInv Hcap. pose proof UNIT_pos as HU.
  unfold ExDOTFPE_cpu. cbn [cache_make cache_Flush FPExpansionVect].
  rewrite (round_down8_spec N HN).
  pose proof (Z.div_mod N 8 ltac:(lia)) as Hdm.
  pose proof (Z.mod_pos_bound N 8 ltac:(lia)) as Hm.
  pose proof (Z.div_pos N 8 ltac:(lia) ltac:(lia)) as Hq.
  replace (8 * (N / 8) / 8) with (N / 8)
    by (rewrite Z.mul_comm, Z.div_mul; lia).
  pose proof (scale_le (16 * (N / 8)) (2 * N) ltac:(lia)) as Hs1.
  pose proof (scale_le (2 * N) (2 * N + 16) ltac:(lia)) as Hs2.
  destruct (loop2_spec a b (Z.to_nat (N / 8)) 0 acc ltac:(lia) HInv)
    as (Hv & HInv1 & Hb1);
    [rewrite Z2Nat.id by lia; generalize dependent (N / 8); intros; lia|].
  rewrite Z2Nat.id in Hb1 by lia.
  assert (Hb1' : Z.abs (value (loop2 (Z.to_nat (N / 8)) 0 a b acc))
                 <= Z.abs (value acc) + 2 * N * UNIT)
    by (generalize dependent (N / 8); intros; lia).
  change (Z.to_nat 0) with 0%nat in Hv. cbn [skipn] in Hv.
  set (cache := loop2 (Z.to_nat (N / 8)) 0 a b acc) in *.
  set (ab := combine a b) in *.
  replace (8 * Z.to_nat (N / 8))%nat with (Z.to_nat (8 * (N / 8))) in Hv by lia.
  destruct (8 * (N / 8) =? N) eqn:Hrem; cbn [negb].
  - apply Z.eqb_eq in Hrem. rewrite Hrem in Hv.
    split; [exact Hv | split; [exact HInv1 | clear Hb1 Hs1; lia]].
  - apply Z.eqb_neq in Hrem.
    unfold offset.
    pose proof (chunk2_spec (load_partial (N - 8 * (N / 8)) (skipn (Z.to_nat (8 * (N / 8))) a))
                            (load_partial (N - 8 * (N / 8)) (skipn (Z.to_nat (8 * (N / 8))) b))
                            cache HInv1) as Hchunk.
    destruct (TwoProductFMA8 _ _) as [x r1].
    cbn [fst snd] in Hchunk. cbv zeta in Hchunk.
    rewrite partial_pairs in Hchunk by lia. fold ab in Hchunk.
    rewrite length_app, repeat_length in Hchunk.
    rewrite sum_terms_app, zero_pairs_sum in Hchunk.
    assert (Hlen : (length (firstn (Z.to_nat (N - 8 * (N / 8)))
                                   (skipn (Z.to_nat (8 * (N / 8))) ab))
                    + (8 - Z.to_nat (N - 8 * (N / 8))) <= 8)%nat).
    { rewrite length_firstn. lia. }
    set (n := (length (firstn (Z.to_nat (N - 8 * (N / 8)))
                              (skipn (Z.to_nat (8 * (N / 8))) ab))
               + (8 - Z.to_nat (N - 8 * (N / 8))))%nat) in *.
    pose proof (scale_le (2 * Z.of_nat n) 16 ltac:(lia)) as Hs3.
    replace ((2 * N + 16) * UNIT) with (2 * N * UNIT + 16 * UNIT) in * by ring.
    clear Hb1 Hs1.
    destruct Hchunk as (Hv2 & HInv2 & Hb2); [lia|].
    replace (Z.to_nat N) with (Z.to_nat (8 * (N / 8)) + Z.to_nat (N - 8 * (N / 8)))%nat by lia.
    rewrite firstn_plus, sum_terms_app.
    split; [lia | split; [exact HInv2 | lia]].
Qed.

Lemma mul_add0_twice (va vb vc : Vec8d) :
  mul_add0 (mul_add0 va vb) vc = map triple_value (combine (combine va vb) vc).
Proof.
  unfold mul_add0. revert vb vc.
  induction va as [|x va IH]; intros [|y vb] [|z vc]; try reflexivity.
  cbn [combine map]. f_equal. apply IH.
Qed.

Lemma chunk_triples (a b c : list double) (i : Z) :
  combine (combine (load (offset a i)) (load (offset b i))) (load (offset c i))
  = firstn 8 (skipn (Z.to_nat i) (combine (combine a b) c)).
Proof. unfold load, offset. now rewrite <- !combine_firstn, !combine_skipn. Qed.

Lemma loop3_spec (a b c : list double) (iters : nat) :
  forall (i : Z) (cache : superacc),
    0 <= i -> Inv cache ->
    Z.abs (value cache) + 8 * Z.of_nat iters * UNIT <= CAP ->
    value (loop3 iters i a b c cache)
    = value cache
      + sum_terms triple_term
          (firstn (8 * iters) (skipn (Z.to_nat i) (combine (combine a b) c))) /\
    Inv (loop3 iters i a b c cache) /\
    Z.abs (value (loop3 iters i a b c cache))
      <= Z.abs (value cache) + 8 * Z.of_nat iters * UNIT.
Proof.
  pose proof UNIT_pos as HU.
  induction iters as [|k IH]; intros i cache Hi HInv Hcap.
  - rewrite Nat.mul_0_r. cbn [loop3 firstn sum_terms fold_right Z.of_nat].
    split; [lia | split; [exact HInv | lia]].
  - cbn [loop3]. cbn [cache_Accumulate FPExpansionVect].
    rewrite mul_add0_twice, chunk_triples.
    set (chunk := firstn 8 (skipn (Z.to_nat i) (combine (combine a b) c))) in *.
    assert (Hlen : (length chunk <= 8)%nat) by apply firstn_le_length.
    rewrite Nat2Z.inj_succ in Hcap.
    pose proof (scale_le (Z.of_nat (length chunk)) 8 ltac:(lia)) as Hs.
    destruct (fold_Accumulate_spec (map triple_value chunk) cache HInv)
      as (Hv & HInv' & Hb); [rewrite length_map; nia|].
    rewrite length_map in Hb. rewrite sum_terms_map in Hv.
    change (sum_terms (fun x => contrib (triple_value x)) chunk)
      with (sum_terms triple_term chunk) in Hv.
    destruct (IH (i + 8) _ ltac:(lia) HInv') as (Hv2 & HInv2 & Hb2); [nia|].
    replace (8 * S k)%nat with (8 + 8 * k)%nat by lia.
    rewrite firstn_plus, sum_terms_app, skipn_skipn.
    replace (Z.to_nat (i + 8)) with (8 + Z.to_nat i)%nat in Hv2 by lia.
    fold chunk. rewrite Nat2Z.inj_succ.
    split; [lia | split; [exact HInv2 | nia]].
Qed.

Lemma partial_triples (a b c : list double) (k : Z) (r : nat) :
  0 <= k <= 8 ->
  (r + Z.to_nat k <= length a)%nat -> (r + Z.to_nat k <= length b)%nat ->
  (r + Z.to_nat k <= length c)%nat ->
  combine (combine (load_partial k (skipn r a)) (load_partial k (skipn r b)))
          (load_partial k (skipn r c))
  = firstn (Z.to_nat k) (skipn r (combine (combine a b) c))
      ++ repeat (zero, zero, zero) (8 - Z.to_nat k).
Proof.
  intros Hk Ha Hb Hc. rewrite (partial_pairs a b k r Hk Ha Hb).
  unfold load_partial. replace (Z.max 0 (Z.min k 8)) with k by lia.
  rewrite combine_app, combine_repeat.
  - now rewrite <- combine_firstn, <- combine_skipn.
  - rewrite !length_firstn, !length_skipn, length_combine. lia.
Qed.

Lemma zero_triples_sum (n : nat) :
  sum_terms triple_term (repeat (zero, zero, zero) n) = 0.
Proof.
  apply sum_terms_zero. intros x Hx. apply repeat_spec in Hx. subst x. reflexivity.
Qed.

(** The three-array kernel adds one double for every triple of the
    first [N]: the product rounded twice. *)
Lemma ExDOTFPE_cpu3_spec (N : Z) (a b c : list double) (acc : superacc) :
  0 <= N < 2 ^ 31 ->
  (Z.to_nat N <= length a)%nat -> (Z.to_nat N <= length b)%nat ->
  (Z.to_nat N <= length c)%nat ->
  Inv acc -> Z.abs (value acc) + (N + 8) * UNIT <= CAP ->
  value (ExDOTFPE_cpu3 N a b c acc)
  = value acc
    + sum_terms triple_term (firstn (Z.to_nat N) (combine (combine a b) c)) /\
  Inv (ExDOTFPE_cpu3 N a b c acc) /\
  Z.abs (value (ExDOTFPE_cpu3 N a b c acc)) <= Z.abs (value acc) + (N + 8) * UNIT.
Proof.
  intros HN Ha Hb Hc HInv Hcap. pose proof UNIT_pos as HU.
  unfold ExDOTFPE_cpu3. cbn [cache_make cache_Flush FPExpansionVect].
  rewrite (round_down8_spec N HN).
  pose proof (Z.div_mod N 8 ltac:(lia)) as Hdm.
  pose proof (Z.mod_pos_bound N 8 ltac:(lia)) as Hm.
  pose proof (Z.div_pos N 8 ltac:(lia) ltac:(lia)) as Hq.
  replace (8 * (N / 8) / 8) with (N / 8)
    by (rewrite Z.mul_comm, Z.div_mul; lia).
  pose proof (scale_le (8 * (N / 8)) N ltac:(lia)) as Hs1.
  pose proof (scale_le N (N + 8) ltac:(lia)) as Hs2.
  destruct (loop3_spec a b c (Z.to_nat (N / 8)) 0 acc ltac:(lia) HInv)
    as (Hv & HInv1 & Hb1);
    [rewrite Z2Nat.id by lia; generalize dependent (N / 8); intros; lia|].
  rewrite Z2Nat.id in Hb1 by lia.
  assert (Hb1' : Z.abs (value (loop3 (Z.to_nat (N / 8)) 0 a b c acc))
                 <= Z.abs (value acc) + N * UNIT)
    by (generalize dependent (N / 8); intros; lia).
  change (Z.to_nat 0) with 0%nat in Hv. cbn [skipn] in Hv.
  set (cache := loop3 (Z.to_nat (N / 8)) 0 a b c acc) in *.
  set (abc := combine (combine a b) c) in *.
  replace (8 * Z.to_nat (N / 8))%nat with (Z.to_nat (8 * (N / 8))) in Hv by lia.
  clear Hb1 Hs1.
  destruct (8 * (N / 8) =? N) eqn:Hrem; cbn [negb].
  - apply Z.eqb_eq in Hrem. rewrite Hrem in Hv.
    split; [exact Hv | split; [exact HInv1 | lia]].
  - apply Z.eqb_neq in Hrem.
    unfold offset. cbn [cache_Accumulate FPExpansionVect].
    rewrite mul_add0_twice, partial_triples by lia. fold abc.
    set (rest := firstn (Z.to_nat (N - 8 * (N / 8))) (skipn (Z.to_nat (8 * (N / 8))) abc)).
    assert (Hlen : (length (rest ++ repeat (zero, zero, zero) (8 - Z.to_nat (N - 8 * (N / 8))))
                    <= 8)%nat).
    { rewrite length_app, repeat_length. unfold rest. rewrite length_firstn. lia. }
    set (lanes := rest ++ repeat (zero, zero, zero) (8 - Z.to_nat (N - 8 * (N / 8)))) in *.
    pose proof (scale_le (Z.of_nat (length lanes)) 8 ltac:(lia)) as Hs3.
    replace ((N + 8) * UNIT) with (N * UNIT + 8 * UNIT) in * by ring.
    destruct (fold_Accumulate_spec (map triple_value lanes) cache HInv1)
      as (Hv2 & HInv2 & Hb2); [rewrite length_map; lia|].
    rewrite length_map in Hb2. rewrite sum_terms_map in Hv2.
    change (sum_terms (fun x => contrib (triple_value x)) lanes)
      with (sum_terms triple_term lanes) in Hv2.
    unfold lanes in Hv2 at 2. rewrite sum_terms_app, zero_triples_sum in Hv2.
    replace (Z.to_nat N) with (Z.to_nat (8 * (N / 8)) + Z.to_nat (N - 8 * (N / 8)))%nat by lia.
    rewrite firstn_plus, sum_terms_app. fold rest.
    split; [lia | split; [exact HInv2 | lia]].
Qed.

End Folds.

(** ** Merging the accumulators of a process group *)

Section Merge.

Lemma canonical_summed (acc : superacc) : canonical acc -> summed 1 acc.
Proof.
  intros (lows & top & -> & Hlen & Hdig). exists lows, top.
  split; [reflexivity | split; [assumption|]].
  eapply Forall_impl; [|exact Hdig]. unfold digit. intros b Hb. lia.
Qed.

Lemma value_summed_bound (j : Z) (l : superacc) :
  0 <= j -> Forall (fun b => 0 <= b <= j * (2 ^ DIGITS - 1)) l ->
  0 <= value l <= j * (2 ^ (DIGITS * Z.of_nat (length l)) - 1).
Proof.
  intros Hj. induction 1 as [|b l Hb Hl IH].
  - cbn. lia.
  - cbn [length]. rewrite value_cons.
    rewrite Nat2Z.inj_succ, Z.mul_succ_r, Z.pow_add_r by (unfold DIGITS; lia).
    set (W := 2 ^ (DIGITS * Z.of_nat (length l))) in *.
    rewrite radix_eq in *. nia.
Qed.

Lemma summed_top_bound (j : Z) (lows : superacc) (top : Z) :
  0 <= j -> length lows = 38%nat ->
  Forall (fun b => 0 <= b <= j * (2 ^ DIGITS - 1)) lows ->
  Z.abs (value (lows ++ [top])) <= CAP ->
  Z.abs top <= 2 ^ 61 + j.
Proof.
  intros Hj Hlen Hlows Hv.
  pose proof (value_summed_bound j lows Hj Hlows) as Hb. rewrite Hlen in Hb.
  rewrite value_app, Hlen, value_cons in Hv. cbn [value] in Hv.
  change (2 ^ (DIGITS * Z.of_nat 38)) with TOPW in *.
  pose proof TOPW_pos as HW. unfold CAP in Hv.
  destruct (Z_le_gt_dec (Z.abs top) (2 ^ 61 + j)) as [|Hgt]; [assumption|exfalso].
  assert (Hcase : 2 ^ 61 + j + 1 <= top \/ top <= - 2 ^ 61 - j - 1) by lia.
  destruct Hcase as [Hp | Hn].
  - assert (TOPW * (2 ^ 61 + j + 1) <= TOPW * top) by (apply Z.mul_le_mono_nonneg_l; lia).
    nia.
  - assert (TOPW * top <= TOPW * (- 2 ^ 61 - j - 1)) by (apply Z.mul_le_mono_nonneg_l; lia).
    nia.
Qed.

Lemma merge_app (l1 l2 l1' l2' : superacc) :
  length l1 = length l1' ->
  merge (l1 ++ l2) (l1' ++ l2') = merge l1 l1' ++ merge l2 l2'.
Proof. intros Hlen. unfold merge. now rewrite combine_app, map_app. Qed.

Lemma merge_lows (j : Z) (l1 : superacc) :
  forall l2,
    0 <= j <= 64 -> length l1 = length l2 ->
    Forall (fun b => 0 <= b <= j * (2 ^ DIGITS - 1)) l1 -> Forall digit l2 ->
    value (merge l1 l2) = value l1 + value l2 /\
    Forall (fun b => 0 <= b <= (j + 1) * (2 ^ DIGITS - 1)) (merge l1 l2) /\
    length (merge l1 l2) = length l1.
Proof.
  induction l1 as [|u l1 IH]; intros [|v l2] Hj Hlen H1 H2; try discriminate.
  - split; [reflexivity | split; [constructor | reflexivity]].
  - inversion H1 as [|? ? Hu H1']; inversion H2 as [|? ? Hv H2']; subst.
    destruct (IH l2 Hj ltac:(now injection Hlen) H1' H2') as (Hval & Hall & Hl).
    unfold merge in *. cbn [combine map fst snd length].
    unfold digit in Hv. rewrite radix_eq in *.
    rewrite wrap64_id by lia.
    rewrite !value_cons, Hval, Hl.
    split; [ring | split; [constructor; [lia | assumption] | reflexivity]].
Qed.

(** Merging a normalized accumulator into a sum of at most 64. *)
Lemma merge_spec (j : Z) (a b : superacc) :
  0 <= j <= 64 -> summed j a -> canonical b ->
  Z.abs (value a) <= CAP -> Z.abs (value b) <= CAP ->
  value (merge a b) = value a + value b /\ summed (j + 1) (merge a b).
Proof.
  intros Hj (la & ta & -> & Hla & Ha) (lb & tb & -> & Hlb & Hb) Hva Hvb.
  pose proof (summed_top_bound j la ta ltac:(lia) Hla Ha Hva) as Hta.
  pose proof (canonical_top_small lb tb Hlb Hb Hvb) as Htb. unfold small in Htb.
  rewrite merge_app by congruence.
  destruct (merge_lows j la lb Hj ltac:(congruence) Ha Hb) as (Hval & Hall & Hl).
  change (merge [ta] [tb]) with [wrap64 (ta + tb)].
  rewrite wrap64_id by lia.
  split.
  - rewrite !value_app, Hl, Hval, Hla, Hlb, !value_cons. cbn [value]. ring.
  - exists (merge la lb), (ta + tb).
    split; [reflexivity | split; [congruence | exact Hall]].
Qed.

Lemma summed_Inv (j : Z) (acc : superacc) :
  0 <= j <= 64 -> summed j acc -> Z.abs (value acc) <= CAP -> Inv acc.
Proof.
  intros Hj (lows & top & -> & Hlen & Hlows) Hv.
  pose proof (summed_top_bound j lows top ltac:(lia) Hlen Hlows Hv) as Htop.
  split.
  - rewrite length_app, Hlen. reflexivity.
  - apply Forall_app. split.
    + eapply Forall_impl; [|exact Hlows]. unfold roomy. rewrite radix_eq.
      intros b Hb. lia.
    + constructor; [unfold roomy; lia | constructor].
Qed.

Lemma zeros_summed : summed 0 (repeat 0 BIN_COUNT).
Proof.
  exists (repeat 0 38), 0. split; [reflexivity | split; [reflexivity|]].
  apply Forall_forall. intros b Hb. apply repeat_spec in Hb. subst b. lia.
Qed.

Lemma sum_abs_nonneg (l : list superacc) :
  0 <= sum_terms (fun a => Z.abs (value a)) l.
Proof.
  induction l as [|a l IH]; [cbn; lia|]. rewrite sum_terms_cons. lia.
Qed.

Lemma sum_abs_triangle (l : list superacc) :
  Z.abs (sum_terms value l) <= sum_terms (fun a => Z.abs (value a)) l.
Proof.
  induction l as [|a l IH]; [cbn; lia|]. rewrite !sum_terms_cons. lia.
Qed.

Lemma fold_merge_spec (accs : list superacc) :
  forall (acc0 : superacc) (j : Z),
    0 <= j -> j + Z.of_nat (length accs) <= 64 ->
    summed j acc0 -> Forall canonical accs ->
    Z.abs (value acc0) + sum_terms (fun a => Z.abs (value a)) accs <= CAP ->
    value (fold_left merge accs acc0) = value acc0 + sum_terms value accs /\
    summed (j + Z.of_nat (length accs)) (fold_left merge accs acc0).
Proof.
  induction accs as [|a accs IH]; intros acc0 j Hj Hn H0 Hcan Hcap.
  - cbn [fold_left sum_terms fold_right length Z.of_nat].
    rewrite !Z.add_0_r. split; [reflexivity | assumption].
  - inversion Hcan as [|? ? Ha Hcan']; subst.
    cbn [length] in *. rewrite Nat2Z.inj_succ in *.
    rewrite sum_terms_cons in Hcap. rewrite sum_terms_cons.
    pose proof (sum_abs_nonneg accs) as Hnn.
    destruct (merge_spec j acc0 a ltac:(lia) H0 Ha ltac:(lia) ltac:(lia)) as [Hv Hs].
    destruct (IH (merge acc0 a) (j + 1) ltac:(lia) ltac:(lia) Hs Hcan') as [Hv2 Hs2];
      [lia|].
    cbn [fold_left]. split; [lia|].
    replace (j + Z.succ (Z.of_nat (length accs))) with (j + 1 + Z.of_nat (length accs)) by lia.
    exact Hs2.
Qed.

(** A collective sum of at most 64 normalized accumulators. *)
Lemma reduce_sum_spec (accs : list superacc) :
  (length accs <= 64)%nat -> Forall canonical accs ->
  sum_terms (fun a => Z.abs (value a)) accs <= CAP ->
  value (reduce_sum accs) = sum_terms value accs /\ Inv (reduce_sum accs).
Proof.
  intros Hn Hcan Hcap. unfold reduce_sum.
  destruct (fold_merge_spec accs (repeat 0 BIN_COUNT) 0 ltac:(lia) ltac:(lia)
              zeros_summed Hcan) as [Hv Hs].
  - change (value (repeat 0 BIN_COUNT)) with 0. cbn [Z.abs]. lia.
  - change (value (repeat 0 BIN_COUNT)) with 0 in Hv.
    split; [lia|].
    apply (summed_Inv (0 + Z.of_nat (length accs))); [lia | assumption |].
    rewrite Hv. pose proof (sum_abs_triangle accs). lia.
Qed.

Lemma Normalize_canonical (acc : superacc) :
  Inv acc ->
  canonical (Normalize IMIN IMAX acc) /\ value (Normalize IMIN IMAX acc) = value acc.
Proof. intros H. destruct (Normalize_spec acc H). now split. Qed.

Lemma normalized_group (g : list superacc) :
  Forall Inv g ->
  Forall canonical (map (Normalize IMIN IMAX) g) /\
  sum_terms value (map (Normalize IMIN IMAX) g) = sum_terms value g /\
  sum_terms (fun a => Z.abs (value a)) (map (Normalize IMIN IMAX) g)
  = sum_terms (fun a => Z.abs (value a)) g.
Proof.
  induction 1 as [|a g Ha Hg (IH1 & IH2 & IH3)].
  - split; [constructor | split; reflexivity].
  - destruct (Normalize_canonical a Ha) as [Hc Hv].
    cbn [map]. rewrite !sum_terms_cons, IH2, IH3, Hv.
    split; [constructor; assumption | split; reflexivity].
Qed.

Lemma group_result_spec (g : list superacc) :
  (length g <= 64)%nat -> Forall Inv g ->
  sum_terms (fun a => Z.abs (value a)) g <= CAP ->
  canonical (group_result g) /\ value (group_result g) = sum_terms value g.
Proof.
  intros Hn HInv Hcap. unfold group_result.
  destruct (normalized_group g HInv) as (Hcan & Hv & Ha).
  destruct (reduce_sum_spec (map (Normalize IMIN IMAX) g)) as [Hsum HI];
    [now rewrite length_map | assumption | now rewrite Ha |].
  destruct (Normalize_canonical _ HI) as [Hc Hval].
  split; [exact Hc | congruence].
Qed.

Lemma leaders_spec (acc : list (list superacc)) :
  Forall (fun g => (length g <= 64)%nat) acc -> Forall (Forall Inv) acc ->
  total_abs acc <= CAP ->
  Forall canonical (map group_result acc) /\
  sum_terms value (map group_result acc) = total_value acc /\
  sum_terms (fun a => Z.abs (value a)) (map group_result acc) <= total_abs acc.
Proof.
  unfold total_value, total_abs.
  induction acc as [|g acc IH]; intros Hlen HInv Hcap.
  - split; [constructor | split; [reflexivity | cbn; lia]].
  - inversion Hlen as [|? ? Hg Hlen']; inversion HInv as [|? ? HIg HInv']; subst.
    rewrite sum_terms_cons in Hcap.
    pose proof (sum_abs_nonneg g) as Hnn.
    assert (Hrest : 0 <= sum_terms (fun g => sum_terms (fun a => Z.abs (value a)) g) acc).
    { clear. induction acc as [|g acc IH]; [cbn; lia|].
      rewrite sum_terms_cons. pose proof (sum_abs_nonneg g). lia. }
    destruct (group_result_spec g Hg HIg ltac:(lia)) as [Hc Hv].
    destruct (IH Hlen' HInv' ltac:(lia)) as (IH1 & IH2 & IH3).
    cbn [map]. rewrite !sum_terms_cons, IH2, Hv.
    pose proof (sum_abs_triangle g).
    split; [constructor; assumption | split; [reflexivity | lia]].
Qed.

(** The distributed combine hands every process one and the same
    normalized accumulator, whose value is the sum of all local values. *)
Lemma reduce_mpi_cpu_spec (acc : list (list superacc)) :
  (length acc <= 64)%nat ->
  Forall (fun g => (length g <= 64)%nat) acc -> Forall (Forall Inv) acc ->
  total_abs acc <= CAP ->
  exists total,
    reduce_mpi_cpu acc = map (map (fun _ => total)) acc /\
    canonical total /\ value total = total_value acc.
Proof.
  intros Hn Hlen HInv Hcap. unfold reduce_mpi_cpu. rewrite map_map.
  change (map (fun g => Normalize IMIN IMAX (reduce_sum (map (Normalize IMIN IMAX) g))) acc)
    with (map group_result acc).
  destruct (leaders_spec acc Hlen HInv Hcap) as (Hcan & Hv & Ha).
  destruct (reduce_sum_spec (map group_result acc)) as [Hsum HI];
    [now rewrite length_map | assumption | lia |].
  destruct (Normalize_canonical _ HI) as [Hc Hval].
  eexists. split; [reflexivity | split; [exact Hc | congruence]].
Qed.

End Merge.

(** ** The dot product of distributed vectors *)

Section Distributed.

Lemma to_int_u32_small (n : Z) : 0 <= n < 2 ^ 31 -> to_int (u32 n) = n.
Proof.
  intros Hn. unfold to_int, u32.
  rewrite (Z.mod_small n) by lia. rewrite Z.mod_small by lia. lia.
Qed.

Lemma zeros_Inv : Inv (repeat 0 BIN_COUNT).
Proof.
  split; [reflexivity|]. apply Forall_forall. intros b Hb.
  apply repeat_spec in Hb. subst b. unfold roomy. cbn. lia.
Qed.

Lemma CAP_UNIT : CAP = 2 ^ 45 * UNIT.
Proof. unfold CAP, UNIT. ring. Qed.

(** The dense three-array dot on one process. *)
Lemma dense_spec (x P y : list double) :
  length x = length P -> length x = length y ->
  Z.of_nat (length x) < 2 ^ 31 ->
  value (doDot_superacc_dense x P y) = sum_terms triple_term (zip3 x P y) /\
  Inv (doDot_superacc_dense x P y) /\
  Z.abs (value (doDot_superacc_dense x P y)) <= 2 ^ 32 * UNIT.
Proof.
  intros HP Hy Hn. unfold doDot_superacc_dense, exdot_cpu3.
  rewrite to_int_u32_small by lia.
  change (clear (repeat 0 BIN_COUNT)) with (repeat 0 BIN_COUNT).
  pose proof UNIT_pos as HU.
  pose proof (scale_le (Z.of_nat (length x) + 8) (2 ^ 32) ltac:(lia)) as Hs.
  destruct (ExDOTFPE_cpu3_spec (Z.of_nat (length x)) x P y (repeat 0 BIN_COUNT))
    as (Hv & HInv & Hb); try (rewrite Nat2Z.id; lia); [lia | apply zeros_Inv | |].
  - change (value (repeat 0 BIN_COUNT)) with 0. rewrite CAP_UNIT. cbn [Z.abs]. lia.
  - change (value (repeat 0 BIN_COUNT)) with 0 in *. cbn [Z.abs] in Hb.
    rewrite Nat2Z.id in Hv. unfold zip3.
    rewrite firstn_all2 in Hv by (rewrite !length_combine; lia).
    split; [lia | split; [exact HInv | lia]].
Qed.

Lemma Round_value (acc : superacc) :
  Inv acc -> Round acc = of_Z_scaled (value acc) OFFSET.
Proof.
  intros H. unfold Round. now destruct (Normalize_spec acc H) as [-> _].
Qed.

Lemma zip3_app {A B D : Type} (a a' : list A) (b b' : list B) (d d' : list D) :
  length a = length b -> length a = length d ->
  zip3 (a ++ a') (b ++ b') (d ++ d') = zip3 a b d ++ zip3 a' b' d'.
Proof.
  intros Hb Hd. unfold zip3. rewrite (combine_app a a' b b' Hb).
  apply combine_app. rewrite length_combine. lia.
Qed.

Lemma zip3_cons {A B D : Type} (x : A) (a : list A) (p : B) (b : list B)
      (q : D) (d : list D) :
  zip3 (x :: a) (p :: b) (q :: d) = (x, p, q) :: zip3 a b d.
Proof. reflexivity. Qed.

Lemma sum_terms_le {A : Type} (f : A -> Z) (M : Z) (l : list A) :
  Forall (fun x => f x <= M) l -> sum_terms f l <= Z.of_nat (length l) * M.
Proof.
  induction 1 as [|x l Hx Hl IH]; [cbn; lia|].
  cbn [length]. rewrite sum_terms_cons, Nat2Z.inj_succ. lia.
Qed.

(** The processes of one sub-group. *)
Lemma group_accs_spec (gx : list (list double)) :
  forall gP gy : list (list double),
    Forall2 (fun a b => length a = length b) gx gP ->
    Forall2 (fun a b => length a = length b) gx gy ->
    Z.of_nat (length (concat gx)) < 2 ^ 31 ->
    let accs := map (fun t => doDot_superacc_dense (fst (fst t)) (snd (fst t)) (snd t))
                    (zip3 gx gP gy) in
    Forall Inv accs /\
    Forall (fun a => Z.abs (value a) <= 2 ^ 32 * UNIT) accs /\
    length accs = length gx /\
    sum_terms value accs
    = sum_terms triple_term (zip3 (concat gx) (concat gP) (concat gy)) /\
    length (concat gx) = length (concat gP) /\
    length (concat gx) = length (concat gy).
Proof.
  induction gx as [|x gx IH]; intros gP gy HP Hy Hn; cbv zeta.
  - inversion HP; inversion Hy; subst. cbn.
    repeat split; constructor.
  - inversion HP as [|? p ? gP' Hxp HP']; inversion Hy as [|? q ? gy' Hxq Hy']; subst.
    cbn [concat] in *. rewrite length_app in Hn.
    destruct (IH gP' gy' HP' Hy' ltac:(lia)) as (I1 & I2 & I3 & I4 & I5 & I6).
    destruct (dense_spec x p q Hxp Hxq ltac:(lia)) as (D1 & D2 & D3).
    rewrite zip3_cons. cbn [map fst snd length].
    rewrite (zip3_app x (concat gx) p (concat gP') q (concat gy') Hxp Hxq).
    rewrite sum_terms_cons, sum_terms_app, I4, D1, I3, !length_app.
    split; [constructor; assumption|].
    split; [constructor; assumption|].
    repeat split; lia.
Qed.

(** All processes of the communicator. *)
Lemma local_accs_spec (lx : list (list (list double))) :
  forall lP ly : list (list (list double)),
    Forall2 (Forall2 (fun a b => length a = length b)) lx lP ->
    Forall2 (Forall2 (fun a b => length a = length b)) lx ly ->
    Z.of_nat (length (concat (concat lx))) < 2 ^ 31 ->
    let accs := local_accs {| local_data := lx |} {| local_data := lP |}
                           {| local_data := ly |} in
    Forall (Forall Inv) accs /\
    Forall (Forall (fun a => Z.abs (value a) <= 2 ^ 32 * UNIT)) accs /\
    map (@length _) accs = map (@length _) lx /\
    total_value accs
    = sum_terms triple_term
        (zip3 (concat (concat lx)) (concat (concat lP)) (concat (concat ly))) /\
    length (concat (concat lx)) = length (concat (concat lP)) /\
    length (concat (concat lx)) = length (concat (concat ly)).
Proof.
  unfold local_accs, total_value. cbn [local_data].
  induction lx as [|gx lx IH]; intros lP ly HP Hy Hn; cbv zeta.
  - inversion HP; inversion Hy; subst. cbn.
    repeat split; constructor.
  - inversion HP as [|? gP ? lP' Hg HP']; inversion Hy as [|? gy ? ly' Hg' Hy']; subst.
    cbn [concat] in *. rewrite !concat_app in *. rewrite length_app in Hn.
    destruct (IH lP' ly' HP' Hy' ltac:(lia)) as (I1 & I2 & I3 & I4 & I5 & I6).
    destruct (group_accs_spec gx gP gy Hg Hg' ltac:(lia))
      as (G1 & G2 & G3 & G4 & G5 & G6).
    rewrite zip3_cons. cbn [map fst snd].
    rewrite (zip3_app (concat gx) (concat (concat lx)) (concat gP) (concat (concat lP'))
                      (concat gy) (concat (concat ly')) G5 G6).
    rewrite sum_terms_cons, sum_terms_app, I4, G4, G3, I3, !length_app.
    split; [constructor; assumption|].
    split; [constructor; assumption|].
    repeat split; lia.
Qed.

Lemma total_abs_bound (accs : list (list superacc)) :
  (length accs <= 64)%nat -> Forall (fun g => (length g <= 64)%nat) accs ->
  Forall (Forall (fun a => Z.abs (value a) <= 2 ^ 32 * UNIT)) accs ->
  total_abs accs <= CAP.
Proof.
  intros Hn Hlen Hb. pose proof UNIT_pos as HU. unfold total_abs.
  assert (Hg : Forall (fun g => sum_terms (fun a => Z.abs (value a)) g <= 2 ^ 38 * UNIT) accs).
  { apply Forall_forall. intros g Hin.
    rewrite Forall_forall in Hlen, Hb.
    pose proof (sum_terms_le _ _ g (Hb g Hin)) as Hle.
    specialize (Hlen g Hin).
    pose proof (scale_le (Z.of_nat (length g) * 2 ^ 32) (2 ^ 38) ltac:(lia)). lia. }
  pose proof (sum_terms_le _ _ accs Hg) as Hle.
  pose proof (scale_le (Z.of_nat (length accs) * 2 ^ 38) (2 ^ 45) ltac:(lia)).
  apply Z.le_trans with (Z.of_nat (length accs) * (2 ^ 38 * UNIT)); [exact Hle|].
  rewrite CAP_UNIT. lia.
Qed.

Lemma total_value_triangle (accs : list (list superacc)) :
  Z.abs (total_value accs) <= total_abs accs.
Proof.
  unfold total_value, total_abs.
  induction accs as [|ga accs IH]; [cbn; lia|].
  rewrite !sum_terms_cons. cbv beta.
  pose proof (sum_abs_triangle ga). lia.
Qed.

Lemma receive_at {A : Type} (fam : list (list A)) (total : superacc) (i j n : nat) :
  nth_error (map (@length _) fam) i = Some n -> (j < n)%nat ->
  match nth_error (map (map (fun _ => total)) fam) i with
  | Some g => match nth_error g j with
              | Some r => Done r
              | None => Undefined
              end
  | None => Undefined
  end = Done total.
Proof.
  intros Hi Hj. rewrite nth_error_map in *.
  destruct (nth_error fam i) as [g|]; [|discriminate].
  cbn [option_map] in *. injection Hi as <-.
  rewrite nth_error_map.
  destruct (nth_error g j) eqn:Hg; [reflexivity|].
  apply nth_error_None in Hg. lia.
Qed.

Lemma same_layout_comm (x y : MPI_Vector) :
  same_layout x y -> same_comm x y = true.
Proof.
  unfold same_layout, same_comm, communicator. intros H.
  assert (Heq : map (@length _) (local_data x) = map (@length _) (local_data y)).
  { induction H as [|gx gy lx ly Hg Hl IH]; [reflexivity|].
    cbn [map]. f_equal; [now apply Forall2_length in Hg | exact IH]. }
  now destruct (list_eq_dec Nat.eq_dec _ _).
Qed.

(** The result of the distributed dot on any process of the group: the
    rounded sum of the terms of all processes. *)
Lemma doDot_mpi_value (dbg : bool) (me : rank) (x P y : MPI_Vector) :
  same_layout x P -> same_layout x y -> member me x ->
  (length (local_data x) <= 64)%nat ->
  Forall (fun g => (length g <= 64)%nat) (local_data x) ->
  Z.of_nat (length (flatten x)) < 2 ^ 31 ->
  doDot dbg me (MPIVec x) P (MPIVec y)
  = Done (of_Z_scaled (sum_terms triple_term (zip3 (flatten x) (flatten P) (flatten y)))
                      OFFSET).
Proof.
  intros HP Hy (g & Hg & Hme) Hgroups Hsizes Hn.
  unfold doDot. cbn [doDot_superacc]. unfold doDot_superacc_mpi.
  rewrite (same_layout_comm x y Hy), (same_layout_comm x P HP).
  cbn [andb negb]. rewrite andb_false_r.
  fold (local_accs x P y).
  destruct x as [lx], P as [lP], y as [ly]. unfold same_layout, flatten in *.
  cbn [local_data] in *.
  destruct (local_accs_spec lx lP ly HP Hy Hn) as (A1 & A2 & A3 & A4 & _).
  set (accs := local_accs _ _ _) in *.
  assert (Hlen : length accs = length lx).
  { rewrite <- (length_map (@length _) accs), A3. apply length_map. }
  assert (Hsz : Forall (fun g => (length g <= 64)%nat) accs).
  { apply Forall_forall. intros ga Hin.
    assert (Hin' : In (length ga) (map (@length _) lx))
      by (rewrite <- A3; now apply in_map).
    apply in_map_iff in Hin'. destruct Hin' as (gx & <- & Hgx).
    rewrite Forall_forall in Hsizes. now apply Hsizes. }
  destruct (reduce_mpi_cpu_spec accs ltac:(lia) Hsz A1
              (total_abs_bound accs ltac:(lia) Hsz A2)) as (total & -> & Hcan & Hval).
  rewrite (receive_at accs total (fst me) (snd me) (length g)); [| |exact Hme].
  - cbn [bind]. f_equal.
    rewrite Round_value.
    + now rewrite Hval, A4.
    + apply canonical_Inv; [exact Hcan|].
      rewrite Hval. pose proof (total_abs_bound accs ltac:(lia) Hsz A2) as Hb.
      pose proof (total_value_triangle accs). fold CAP. lia.
  - rewrite A3, nth_error_map, Hg. reflexivity.
Qed.

End Distributed.

(** ** Rounding of binary64 *)

Section Rounding.

Lemma fexp_eq (e : Z) : fexp prec emax e = Z.max (e - 53) (-1074).
Proof. reflexivity. Qed.

(** Number of binary digits of a positive number. *)
Lemma digits2_pos_bounds (p : positive) :
  2 ^ (Zpos (digits2_pos p) - 1) <= Zpos p < 2 ^ Zpos (digits2_pos p).
Proof.
  induction p as [p IH | p IH |]; cbn [digits2_pos].
  - rewrite Pos2Z.inj_succ. replace (Z.succ (Zpos (digits2_pos p)) - 1)
      with (Z.succ (Zpos (digits2_pos p) - 1)) by lia.
    rewrite !Z.pow_succ_r by lia. lia.
  - rewrite Pos2Z.inj_succ. replace (Z.succ (Zpos (digits2_pos p)) - 1)
      with (Z.succ (Zpos (digits2_pos p) - 1)) by lia.
    rewrite !Z.pow_succ_r by lia. lia.
  - cbn. lia.
Qed.

Lemma digits2_pos_le (p : positive) (k : Z) :
  0 <= k -> Zpos p < 2 ^ k -> Zpos (digits2_pos p) <= k.
Proof.
  intros Hk Hp. pose proof (digits2_pos_bounds p) as [Hlo _].
  destruct (Z_le_gt_dec (Zpos (digits2_pos p)) k) as [|Hgt]; [assumption|exfalso].
  assert (2 ^ k <= 2 ^ (Zpos (digits2_pos p) - 1)) by (apply Z.pow_le_mono_r; lia).
  lia.
Qed.

Lemma digits2_pos_ge (p : positive) (k : Z) :
  2 ^ k <= Zpos p -> k < Zpos (digits2_pos p).
Proof.
  intros Hp. pose proof (digits2_pos_bounds p) as [_ Hhi].
  destruct (Z_lt_ge_dec k (Zpos (digits2_pos p))) as [|Hge]; [assumption|exfalso].
  assert (2 ^ Zpos (digits2_pos p) <= 2 ^ k) by (apply Z.pow_le_mono_r; lia).
  lia.
Qed.

Lemma iter_xO (m d : positive) : Zpos (Pos.iter xO m d) = Zpos m * 2 ^ Zpos d.
Proof.
  revert m. induction d as [|d IH] using Pos.peano_ind; intros m.
  - cbn. lia.
  - rewrite Pos.iter_succ, Pos2Z.inj_xO, IH, Pos2Z.inj_succ, Z.pow_succ_r by lia. ring.
Qed.

Lemma shr_1_shifted (m k : Z) (r : shr_record) :
  0 <= k -> shifted m k r -> shifted m (k + 1) (shr_1 r).
Proof.
  intros Hk (Hm & Hb & Hs). destruct r as [q rb sb]. cbn [shr_m shr_r shr_s] in *.
  unfold shifted. rewrite Z.pow_add_r, Z.pow_1_r by lia.
  assert (Hpos : 0 < 2 ^ k) by (apply Z.pow_pos_nonneg; lia).
  set (W := 2 ^ k) in *.
  assert (Hrb : 0 <= b2z rb <= 1) by (destruct rb; cbn; lia).
  destruct q as [|[q|q|]|q]; try lia; cbn [shr_1 shr_m shr_r shr_s b2z];
    (split; [lia|]); (split; [nia|]);
    destruct rb, sb; cbn [orb b2z] in *; split; intros H; try discriminate; try nia;
    try (exfalso; destruct Hs as [Hs1 Hs2]; try (specialize (Hs2 ltac:(nia)); discriminate); nia).
Qed.

Lemma iter_pos_shifted (m : Z) (p : positive) :
  forall (k : Z) (r : shr_record),
    0 <= k -> shifted m k r -> shifted m (k + Zpos p) (iter_pos shr_1 p r).
Proof.
  induction p as [p IH | p IH |]; intros k r Hk Hr; cbn [iter_pos].
  - replace (k + Zpos p~1) with (k + 1 + Zpos p + Zpos p) by lia.
    apply IH; [lia|]. apply IH; [lia|]. now apply shr_1_shifted.
  - replace (k + Zpos p~0) with (k + Zpos p + Zpos p) by lia.
    apply IH; [lia|]. now apply IH.
  - now apply shr_1_shifted.
Qed.

Lemma exact_shifted (m : Z) :
  0 <= m -> shifted m 0 {| shr_m := m; shr_r := false; shr_s := false |}.
Proof.
  intros Hm. unfold shifted. cbn [shr_m shr_r shr_s b2z]. rewrite Z.pow_0_r.
  split; [lia|]. split; [lia|]. split; intros; [lia | reflexivity].
Qed.

(** Rounding a shifted number to nearest-even: the result is within half
    a unit of the shifted position. *)
Lemma round_shifted (m n : Z) (r : shr_record) :
  1 <= n -> shifted m n r ->
  let mr := round_nearest_even (shr_m r) (loc_of_shr_record r) in
  shr_m r <= mr <= shr_m r + 1 /\
  2 ^ n * shr_m r <= m /\
  Z.abs (m - 2 ^ n * mr) <= 2 ^ (n - 1).
Proof.
  intros Hn (Hm & Hb & Hs). destruct r as [q rb sb]. cbn [shr_m shr_r shr_s] in *.
  replace n with (n - 1 + 1) in Hb, Hs |- * by lia.
  rewrite Z.pow_add_r, Z.pow_1_r in * by lia.
  replace (n - 1 + 1 - 1) with (n - 1) by lia.
  assert (Hpos : 0 < 2 ^ (n - 1)) by (apply Z.pow_pos_nonneg; lia).
  set (H := 2 ^ (n - 1)) in *.
  destruct rb, sb; cbn [loc_of_shr_record round_nearest_even b2z] in *.
  - split; [lia|]. split; [nia|]. nia.
  - assert (2 * m = H * 2 * (2 * q + 1)) by (apply Hs; reflexivity).
    destruct (Z.even q); split; try lia; split; nia.
  - split; [lia|]. split; [nia|].
    assert (2 * m <> H * 2 * (2 * q + 0)).
    { intros Heq. apply Hs in Heq. discriminate. }
    nia.
  - assert (2 * m = H * 2 * (2 * q + 0)) by (apply Hs; reflexivity).
    split; [lia|]. split; nia.
Qed.

Lemma shr_nonpos (r : shr_record) (e n : Z) : n <= 0 -> shr r e n = (r, e).
Proof. intros Hn. destruct n; try reflexivity. lia. Qed.

(** A mantissa that already fits is left alone. *)
Lemma binary_round_aux_noshift (s : bool) (m : positive) (e : Z) :
  fexp prec emax (Zpos (digits2_pos m) + e) <= e ->
  binary_round_aux prec emax s (Zpos m) e loc_Exact
  = if e <=? emax - prec then S754_finite s m e else S754_infinity s.
Proof.
  intros Hf. unfold binary_round_aux, shr_fexp.
  cbn [Zdigits2 shr_record_of_loc].
  rewrite shr_nonpos by lia.
  cbn [shr_m loc_of_shr_record round_nearest_even Zdigits2 shr_record_of_loc].
  rewrite shr_nonpos by lia. reflexivity.
Qed.

Lemma digits_53 (m : positive) : 2 ^ 52 <= Zpos m < 2 ^ 53 -> Zpos (digits2_pos m) = 53.
Proof.
  intros [Hlo Hhi].
  pose proof (digits2_pos_le m 53 ltac:(lia) Hhi).
  pose proof (digits2_pos_ge m 52 Hlo). lia.
Qed.

Lemma shr_fexp_carry (e : Z) :
  -1074 <= e ->
  shr_fexp prec emax (2 ^ 53) e loc_Exact
  = ({| shr_m := Zpos (2 ^ 52); shr_r := false; shr_s := false |}, e + 1).
Proof.
  intros He. unfold shr_fexp. change (Zdigits2 (2 ^ 53)) with 54.
  rewrite fexp_eq. replace (Z.max (54 + e - 53) (-1074) - e) with 1 by lia.
  reflexivity.
Qed.

(** Rounding a positive integer [P * 2^E] that is not below the
    subnormal grid: the result, when finite, is [mh * 2^eh] with a
    53-bit [mh], and it is off by at most half a unit of its last place. *)
Lemma binary_round_aux_spec (s : bool) (P : positive) (E : Z) :
  -1074 <= E ->
  exists (mh : positive) (eh : Z),
    binary_round_aux prec emax s (Zpos P) E loc_Exact
    = (if eh <=? emax - prec then S754_finite s mh eh else S754_infinity s) /\
    E <= eh /\ Zpos mh < 2 ^ 53 /\
    Z.abs (Zpos P - Zpos mh * 2 ^ (eh - E)) <= 2 ^ (Zpos (digits2_pos P) - 54).
Proof.
  intros HE. set (dP := Zpos (digits2_pos P)).
  pose proof (digits2_pos_bounds P) as HdP. fold dP in HdP.
  destruct (Z_le_gt_dec dP 53) as [Hsmall | Hbig].
  - exists P, E. rewrite binary_round_aux_noshift by (rewrite fexp_eq; fold dP; lia).
    split; [reflexivity|]. split; [lia|]. split.
    + apply Z.lt_le_trans with (2 ^ dP); [lia|]. apply Z.pow_le_mono_r; lia.
    + rewrite Z.sub_diag, Z.pow_0_r, Z.mul_1_r, Z.sub_diag. cbn [Z.abs].
      apply Z.pow_nonneg. lia.
  - set (n := dP - 53).
    assert (Hn : fexp prec emax (dP + E) - E = n) by (rewrite fexp_eq; unfold n; lia).
    unfold binary_round_aux, shr_fexp at 1. cbn [Zdigits2 shr_record_of_loc].
    fold dP. rewrite Hn.
    destruct n as [|pn|pn] eqn:Hpn; try lia. cbn [shr].
    pose proof (iter_pos_shifted (Zpos P) pn 0 _ ltac:(lia) (exact_shifted (Zpos P) ltac:(lia)))
      as Hsh.
    rewrite Z.add_0_l in Hsh.
    set (r := iter_pos shr_1 pn _) in *.
    destruct (round_shifted (Zpos P) (Zpos pn) r ltac:(lia) Hsh) as (Hmr & Hq & Herr).
    set (mr := round_nearest_even (shr_m r) (loc_of_shr_record r)) in *.
    destruct Hsh as (Hq0 & Hb & _).
    assert (Hpow : 2 ^ dP = 2 ^ Zpos pn * 2 ^ 53).
    { rewrite <- Z.pow_add_r by lia. f_equal. lia. }
    assert (Hpow1 : 2 * 2 ^ (dP - 1) = 2 ^ dP).
    { rewrite <- Z.pow_succ_r by lia. f_equal. lia. }
    assert (Hpn0 : 0 < 2 ^ Zpos pn) by (apply Z.pow_pos_nonneg; lia).
    assert (Hrb : 0 <= b2z (shr_r r) <= 1) by (destruct (shr_r r); cbn; lia).
    assert (Hqr : 2 ^ 52 <= shr_m r < 2 ^ 53) by (split; nia).
    replace (Zpos pn - 1) with (dP - 54) in Herr by lia.
    destruct (Z.eq_dec mr (2 ^ 53)) as [Heq | Hne].
    + exists (2 ^ 52)%positive, (E + Zpos pn + 1).
      rewrite Heq, shr_fexp_carry by lia. cbn [shr_m].
      split; [reflexivity|]. split; [lia|]. split; [reflexivity|].
      replace (E + Zpos pn + 1 - E) with (Zpos pn + 1) by lia.
      rewrite Z.pow_add_r, Z.pow_1_r by lia.
      rewrite Heq in Herr.
      replace (Zpos (2 ^ 52) * (2 ^ Zpos pn * 2)) with (2 ^ Zpos pn * 2 ^ 53);
        [exact Herr|].
      change (Zpos (2 ^ 52)) with 4503599627370496.
      change (2 ^ 53) with 9007199254740992. ring.
    + destruct mr as [|pm|pm] eqn:Hmrp; try lia.
      exists pm, (E + Zpos pn).
      unfold shr_fexp. cbn [Zdigits2 shr_record_of_loc].
      rewrite (digits_53 pm) by lia. rewrite fexp_eq.
      rewrite shr_nonpos by lia. cbn [shr_m].
      split; [reflexivity|]. split; [lia|]. split; [lia|].
      replace (E + Zpos pn - E) with (Zpos pn) by lia.
      rewrite (Z.mul_comm (Zpos pm)). exact Herr.
Qed.

Lemma shl_align_spec (m : positive) (e e' : Z) :
  e' <= e ->
  Zpos (fst (shl_align m e e')) = Zpos m * 2 ^ (e - e') /\
  snd (shl_align m e e') = e'.
Proof.
  intros He. unfold shl_align.
  destruct (e' - e) as [|d|d] eqn:Hd; try lia; cbn [fst snd].
  - replace (e - e') with 0 by lia. rewrite Z.pow_0_r. lia.
  - rewrite iter_xO. replace (e - e') with (Zpos d) by lia. lia.
Qed.

Lemma contrib_finite (s : bool) (m : positive) (e : Z) :
  OFFSET <= e <= 971 -> Zpos m < 2 ^ 53 ->
  contrib (S754_finite s m e) = cond_Zopp s (Zpos m * 2 ^ (e - OFFSET)).
Proof.
  intros He Hm. cbn [contrib].
  replace (OFFSET <=? e) with true by (symmetry; apply Z.leb_le; lia).
  replace (Zpos m <? 2 ^ 53) with true by (symmetry; apply Z.ltb_lt; lia).
  replace (e <=? 971) with true by (symmetry; apply Z.leb_le; lia).
  reflexivity.
Qed.

Lemma representable_finite (s : bool) (m : positive) (e : Z) :
  -1074 <= e <= 971 -> Zpos m < 2 ^ 53 -> representable (S754_finite s m e) = true.
Proof.
  intros He Hm. cbn [representable].
  replace (-1074 <=? e) with true by (symmetry; apply Z.leb_le; lia).
  replace (Zpos m <? 2 ^ 53) with true by (symmetry; apply Z.ltb_lt; lia).
  replace (e <=? 971) with true by (symmetry; apply Z.leb_le; lia).
  reflexivity.
Qed.

(** The bins hold a representable double as its value, 46 bits up. *)
Lemma contrib_scaled (x : double) :
  representable x = true -> contrib x = scaled x * 2 ^ 46.
Proof.
  destruct x as [s | s | | s m e]; try discriminate; [reflexivity|].
  cbn [representable]. intros H.
  apply andb_true_iff in H. destruct H as [H Hm].
  apply andb_true_iff in H. destruct H as [Hlo Hhi].
  apply Z.leb_le in Hlo, Hhi. apply Z.ltb_lt in Hm.
  rewrite contrib_finite by (unfold OFFSET, F_WORDS, DIGITS; lia).
  unfold scaled. cbn [num ex].
  replace (e - OFFSET) with (e + 1074 + 46) by (unfold OFFSET, F_WORDS, DIGITS; lia).
  rewrite Z.pow_add_r by lia. destruct s; cbn [cond_Zopp]; ring.
Qed.

(** A number of at most 53 bits on the grid of the doubles is a double. *)
Lemma binary_round_small (s : bool) (p : positive) (E : Z) :
  Zpos p < 2 ^ 53 -> -1074 <= E <= 971 ->
  exists (mz : positive) (ez : Z),
    binary_round prec emax s p E = S754_finite s mz ez /\
    -1074 <= ez <= 971 /\ Zpos mz < 2 ^ 53 /\
    Zpos mz * 2 ^ (ez + 1074) = Zpos p * 2 ^ (E + 1074).
Proof.
  intros Hp HE. unfold binary_round.
  set (dp := Zpos (digits2_pos p)).
  pose proof (digits2_pos_le p 53 ltac:(lia) Hp) as Hdp. fold dp in Hdp.
  pose proof (digits2_pos_bounds p) as Hb. fold dp in Hb.
  set (f := fexp prec emax (dp + E)).
  assert (Hf : f = Z.max (dp + E - 53) (-1074)) by reflexivity.
  destruct (shl_align_spec p E f ltac:(lia)) as [Hm He].
  destruct (shl_align p E f) as [mz ez]. cbn [fst snd] in Hm, He. subst ez.
  assert (Hpow : 0 < 2 ^ (E - f)) by (apply Z.pow_pos_nonneg; lia).
  assert (Hdz : Zpos (digits2_pos mz) = dp + (E - f)).
  { assert (Hhi : Zpos mz < 2 ^ (dp + (E - f)))
      by (rewrite Z.pow_add_r by lia; nia).
    assert (Hlo : 2 ^ (dp - 1 + (E - f)) <= Zpos mz)
      by (rewrite Z.pow_add_r by lia; nia).
    assert (Hdp0 : 0 < dp) by (unfold dp; lia).
    pose proof (digits2_pos_le mz (dp + (E - f)) ltac:(lia) Hhi).
    pose proof (digits2_pos_ge mz (dp - 1 + (E - f)) Hlo). lia. }
  rewrite binary_round_aux_noshift
    by (rewrite Hdz; replace (dp + (E - f) + f) with (dp + E) by lia; fold f; lia).
  replace (f <=? emax - prec) with true
    by (symmetry; apply Z.leb_le; unfold emax, prec; lia).
  exists mz, f. split; [reflexivity|]. split; [lia|]. split.
  - apply Z.lt_le_trans with (2 ^ Zpos (digits2_pos mz));
      [apply digits2_pos_bounds | apply Z.pow_le_mono_r; lia].
  - rewrite Hm, <- Z.mul_assoc, <- Z.pow_add_r by lia.
    do 2 f_equal. lia.
Qed.

Lemma binary_normalize_small (D E : Z) :
  Z.abs D < 2 ^ 53 -> -1074 <= E <= 971 ->
  representable (binary_normalize prec emax D E false) = true /\
  scaled (binary_normalize prec emax D E false) = D * 2 ^ (E + 1074).
Proof.
  intros HD HE. destruct D as [|p|p]; cbn [binary_normalize].
  - split; reflexivity.
  - destruct (binary_round_small false p E ltac:(lia) HE) as (mz & ez & -> & He & Hm & Hv).
    split; [now apply representable_finite|].
    unfold scaled. cbn [num ex cond_Zopp]. exact Hv.
  - destruct (binary_round_small true p E ltac:(lia) HE) as (mz & ez & -> & He & Hm & Hv).
    split; [now apply representable_finite|].
    unfold scaled. cbn [num ex cond_Zopp]. lia.
Qed.

Lemma valid_finite (s : bool) (m : positive) (e : Z) :
  valid (S754_finite s m e) = true -> Zpos m < 2 ^ 53 /\ -1074 <= e <= 971.
Proof.
  unfold valid, valid_binary, bounded, canonical_mantissa. intros H.
  apply andb_true_iff in H. destruct H as [Hc He].
  apply Z.eqb_eq in Hc. apply Z.leb_le in He. rewrite fexp_eq in Hc.
  unfold emax, prec in He.
  pose proof (digits2_pos_bounds m) as [_ Hhi].
  split; [|lia].
  apply Z.lt_le_trans with (2 ^ Zpos (digits2_pos m)); [exact Hhi|].
  apply Z.pow_le_mono_r; lia.
Qed.

Lemma valid_representable (x : double) :
  valid x = true -> is_finite x = true -> representable x = true.
Proof.
  destruct x as [s | s | | s m e]; try discriminate; [reflexivity|].
  intros Hv _. destruct (valid_finite s m e Hv). now apply representable_finite.
Qed.

(** The error-free transform: head and tail are doubles the bins take
    in, and they add up to the exact product whenever the product is in
    range. *)
Lemma TwoProductFMA_exact (a b : double) :
  valid a = true -> valid b = true -> product_in_range a b = true ->
  representable (fst (TwoProductFMA a b)) = true /\
  representable (snd (TwoProductFMA a b)) = true /\
  (scaled (fst (TwoProductFMA a b)) + scaled (snd (TwoProductFMA a b))) * 2 ^ 1074
  = scaled a * scaled b.
Proof.
  intros Ha Hb Hr. unfold TwoProductFMA. cbn [fst snd].
  destruct a as [sa | sa | | sa ma ea], b as [sb | sb | | sb mb eb];
    try discriminate;
    try (unfold scaled at 3 4; cbn [num]; rewrite ?Z.mul_0_l, ?Z.mul_0_r;
         destruct sa, sb; repeat split; reflexivity).
  cbn [product_in_range] in Hr.
  apply andb_true_iff in Hr. destruct Hr as [HE Hfin].
  apply Z.leb_le in HE.
  destruct (valid_finite _ _ _ Ha) as [Hma Hea].
  destruct (valid_finite _ _ _ Hb) as [Hmb Heb].
  set (E := ea + eb) in *. set (sab := xorb sa sb).
  assert (HP : Zpos (ma * mb) < 2 ^ 106).
  { rewrite Pos2Z.inj_mul. change (2 ^ 106) with (2 ^ 53 * 2 ^ 53). nia. }
  pose proof (digits2_pos_le (ma * mb) 106 ltac:(lia) HP) as HdP.
  unfold fma. unfold mul in Hfin |- *. cbn [SFmul] in Hfin |- *.
  fold E sab in Hfin |- *.
  destruct (binary_round_aux_spec sab (ma * mb) E HE) as (mh & eh & Hres & HEh & Hmh & Herr).
  rewrite Hres in Hfin |- *.
  destruct (eh <=? emax - prec) eqn:Heh; [|discriminate].
  apply Z.leb_le in Heh. unfold emax, prec in Heh.
  cbn [opp SFopp]. unfold add. cbn [SFadd].
  rewrite Z.min_l by lia.
  destruct (shl_align_spec (ma * mb) E E ltac:(lia)) as [HsP _].
  destruct (shl_align_spec mh eh E HEh) as [Hsh _].
  rewrite HsP, Hsh, Z.sub_diag, Z.pow_0_r, Z.mul_1_r.
  assert (Hpow : 2 ^ (Zpos (digits2_pos (ma * mb)) - 54) <= 2 ^ 52)
    by (apply Z.pow_le_mono_r; lia).
  set (D := cond_Zopp sab (Zpos (ma * mb)) + cond_Zopp (negb sab) (Zpos mh * 2 ^ (eh - E))).
  assert (HD : D = cond_Zopp sab (Zpos (ma * mb) - Zpos mh * 2 ^ (eh - E)))
    by (unfold D; destruct sab; cbn [cond_Zopp negb]; ring).
  destruct (binary_normalize_small D E) as [Hrt Hst];
    [rewrite HD; destruct sab; cbn [cond_Zopp]; lia | lia |].
  split; [apply representable_finite; lia|]. split; [exact Hrt|].
  rewrite Hst. unfold scaled. cbn [num ex]. fold E.
  rewrite HD.
  replace (eh + 1074) with (eh - E + (E + 1074)) by lia.
  rewrite Z.pow_add_r by lia.
  replace (cond_Zopp sa (Zpos ma) * 2 ^ (ea + 1074) * (cond_Zopp sb (Zpos mb) * 2 ^ (eb + 1074)))
    with (cond_Zopp sab (Zpos (ma * mb)) * (2 ^ (E + 1074) * 2 ^ 1074)).
  - destruct sab; cbn [cond_Zopp]; ring.
  - rewrite <- Z.pow_add_r by lia.
    replace (E + 1074 + 1074) with (ea + 1074 + (eb + 1074)) by (unfold E; lia).
    rewrite Z.pow_add_r by lia. unfold sab.
    rewrite Pos2Z.inj_mul. destruct sa, sb; cbn [cond_Zopp xorb]; ring.
Qed.

End Rounding.

(** ** Independence of the distribution *)

Section DistributedDot.

Lemma flatten_length (x y : MPI_Vector) :
  same_layout x y -> length (flatten x) = length (flatten y).
Proof.
  unfold same_layout, flatten. intros H.
  induction H as [|gx gy lx ly Hg Hl IH]; [reflexivity|].
  cbn [concat]. rewrite !concat_app, !length_app, IH. f_equal.
  clear - Hg. induction Hg as [|a b gx gy Hab Hg IH]; [reflexivity|].
  cbn [concat]. rewrite !length_app. congruence.
Qed.

Lemma flatten_gather (x : MPI_Vector) : flatten (gather x) = flatten x.
Proof. unfold gather, flatten. cbn [local_data concat app]. now rewrite !app_nil_r. Qed.

Lemma gather_well_distributed (x P y : MPI_Vector) :
  well_distributed x P y -> well_distributed (gather x) (gather P) (gather y).
Proof.
  intros (HP & Hy & _ & _ & Hn). unfold well_distributed.
  rewrite flatten_gather. cbn [gather local_data length].
  split; [repeat constructor; now apply flatten_length|].
  split; [repeat constructor; now apply flatten_length|].
  split; [lia|]. split; [repeat constructor | exact Hn].
Qed.



End DistributedDot.

(** ** The two-array kernel and its chunks *)

Section TwoArrays.

Lemma combine_fst_snd {A B : Type} (l : list (A * B)) :
  combine (map fst l) (map snd l) = l.
Proof. induction l as [|[x y] l IH]; [reflexivity|]. cbn. now rewrite IH. Qed.

Lemma TwoProductFMA8_pairs (va vb : Vec8d) :
  TwoProductFMA8 va vb
  = TwoProductFMA8 (map fst (combine va vb)) (map snd (combine va vb)).
Proof. unfold TwoProductFMA8. now rewrite combine_fst_snd. Qed.

(** The loop over the full chunks is the grouped algorithm on chunks of
    eight. *)
Lemma loop2_chunks (a b : list double) (iters : nat) :
  forall (i : Z) (cache : superacc),
    0 <= i ->
    loop2 iters i a b cache
    = accumulate_grouped (full_chunks iters (skipn (Z.to_nat i) (combine a b))) cache.
Proof.
  induction iters as [|k IH]; intros i cache Hi; [reflexivity|].
  cbn [loop2 full_chunks]. unfold accumulate_grouped. cbn [fold_left].
  rewrite TwoProductFMA8_pairs, chunk_pairs.
  destruct (TwoProductFMA8 _ _) as [x r1].
  rewrite IH by lia. rewrite skipn_skipn.
  replace (Z.to_nat (i + 8)) with (8 + Z.to_nat i)%nat by lia. reflexivity.
Qed.

Lemma accumulate_grouped_app (l1 l2 : list (list (double * double))) (acc : superacc) :
  accumulate_grouped (l1 ++ l2) acc = accumulate_grouped l2 (accumulate_grouped l1 acc).
Proof. unfold accumulate_grouped. apply fold_left_app. Qed.

(** The kernel is the grouped algorithm on its chunks. *)
Lemma ExDOTFPE_cpu_chunks (N : Z) (a b : list double) (acc : superacc) :
  0 <= N < 2 ^ 31 ->
  (Z.to_nat N <= length a)%nat -> (Z.to_nat N <= length b)%nat ->
  ExDOTFPE_cpu N a b acc = accumulate_grouped (kernel_chunks N (combine a b)) acc.
Proof.
  intros HN Ha Hb. unfold ExDOTFPE_cpu, kernel_chunks.
  cbn [cache_make cache_Flush FPExpansionVect].
  rewrite (round_down8_spec N HN).
  pose proof (Z.div_mod N 8 ltac:(lia)) as Hdm.
  pose proof (Z.mod_pos_bound N 8 ltac:(lia)) as Hm.
  pose proof (Z.div_pos N 8 ltac:(lia) ltac:(lia)) as Hq.
  replace (8 * (N / 8) / 8) with (N / 8) by (rewrite Z.mul_comm, Z.div_mul; lia).
  rewrite loop2_chunks by lia. change (Z.to_nat 0) with 0%nat. cbn [skipn].
  rewrite accumulate_grouped_app.
  replace (N - 8 * (N / 8)) with (N mod 8) by lia.
  destruct (N mod 8 =? 0) eqn:Hrem.
  - apply Z.eqb_eq in Hrem.
    replace (8 * (N / 8) =? N) with true by (symmetry; apply Z.eqb_eq; lia).
    reflexivity.
  - apply Z.eqb_neq in Hrem.
    replace (8 * (N / 8) =? N) with false by (symmetry; apply Z.eqb_neq; lia).
    cbn [negb]. unfold offset.
    rewrite TwoProductFMA8_pairs, partial_pairs by lia. reflexivity.
Qed.

Lemma clear_fresh (h : superacc) :
  length h = BIN_COUNT -> clear h = repeat 0 BIN_COUNT.
Proof.
  intros Hh. unfold clear. rewrite skipn_all2 by lia. apply app_nil_r.
Qed.

(** [exdot_cpu]: the accumulator is cleared, then the kernel adds head
    and tail of the products of the first [N] pairs. *)
Lemma exdot_cpu_spec (N : Z) (a b : list double) (h : superacc) :
  0 <= N < 2 ^ 31 ->
  (Z.to_nat N <= length a)%nat -> (Z.to_nat N <= length b)%nat ->
  length h = BIN_COUNT ->
  value (exdot_cpu N a b h) = sum_terms pair_terms (firstn (Z.to_nat N) (combine a b)) /\
  Inv (exdot_cpu N a b h).
Proof.
  intros HN Ha Hb Hh. unfold exdot_cpu.
  rewrite to_int_u32_small, clear_fresh by assumption.
  pose proof (scale_le (2 * N + 16) (2 ^ 45) ltac:(lia)) as Hs.
  destruct (ExDOTFPE_cpu_spec N a b (repeat 0 BIN_COUNT) HN Ha Hb zeros_Inv)
    as (Hv & HInv & _).
  - change (value (repeat 0 BIN_COUNT)) with 0. rewrite CAP_UNIT. cbn [Z.abs]. lia.
  - change (value (repeat 0 BIN_COUNT)) with 0 in Hv. split; [lia | exact HInv].
Qed.

Lemma accumulate_grouped_spec (chunks : list (list (double * double))) :
  forall acc,
    Inv acc ->
    Z.abs (value acc) + 2 * Z.of_nat (length (concat chunks)) * UNIT <= CAP ->
    value (accumulate_grouped chunks acc)
    = value acc + sum_terms pair_terms (concat chunks) /\
    Inv (accumulate_grouped chunks acc) /\
    Z.abs (value (accumulate_grouped chunks acc))
      <= Z.abs (value acc) + 2 * Z.of_nat (length (concat chunks)) * UNIT.
Proof.
  unfold accumulate_grouped.
  induction chunks as [|ch chunks IH]; intros acc HInv Hcap.
  - cbn [fold_left concat length sum_terms fold_right Z.of_nat].
    split; [lia | split; [exact HInv | lia]].
  - cbn [fold_left concat] in *. rewrite length_app, Nat2Z.inj_add in *.
    pose proof (chunk2_spec (map fst ch) (map snd ch) acc HInv) as Hchunk.
    destruct (TwoProductFMA8 (map fst ch) (map snd ch)) as [x r1].
    cbn [fst snd] in Hchunk. cbv zeta in Hchunk.
    rewrite combine_fst_snd in Hchunk.
    assert (Hn1 : 0 <= Z.of_nat (length ch) * UNIT)
      by (pose proof UNIT_pos; apply Z.mul_nonneg_nonneg; lia).
    assert (Hn2 : 0 <= Z.of_nat (length (concat chunks)) * UNIT)
      by (pose proof UNIT_pos; apply Z.mul_nonneg_nonneg; lia).
    destruct Hchunk as (Hv & HInv' & Hb); [lia|].
    destruct (IH _ HInv') as (Hv2 & HInv2 & Hb2); [lia|].
    rewrite sum_terms_app.
    split; [lia | split; [exact HInv2 | lia]].
Qed.

Lemma pair_terms_exact (ab : double * double) :
  exact_pair ab -> pair_terms ab * 2 ^ 1028 = scaled (fst ab) * scaled (snd ab).
Proof.
  intros (Ha & Hb & Hr). unfold pair_terms.
  destruct (TwoProductFMA_exact (fst ab) (snd ab) Ha Hb Hr) as (Hh & Ht & Hsum).
  rewrite !contrib_scaled by assumption.
  rewrite <- Hsum. change (2 ^ 1074) with (2 ^ 46 * 2 ^ 1028). ring.
Qed.

Lemma sum_pair_terms_exact (l : list (double * double)) :
  Forall exact_pair l ->
  sum_terms pair_terms l * 2 ^ 1028
  = sum_terms (fun ab => scaled (fst ab) * scaled (snd ab)) l.
Proof.
  induction 1 as [|ab l Hab Hl IH]; [reflexivity|].
  rewrite !sum_terms_cons, Z.mul_add_distr_r, IH, pair_terms_exact by assumption.
  reflexivity.
Qed.




End TwoArrays.

(** ** The crafted input, the error-free transform, the triple product *)

Section CraftedInput.

(** C7. For x = [1e16, 1, -1e16, 1, 1, -1] against ones the engine
    returns the double 2, in whatever order the pairs are fed. *)
Theorem crafted_dot_is_two (xys : list (double * double)) :
  Permutation xys (combine crafted ones) ->
  Round (exdot_cpu 6 (map fst xys) (map snd xys) (repeat 0 BIN_COUNT)) = of_Z 2.
Proof.
  intros Hperm.
  assert (Hlen : length xys = 6%nat) by (now rewrite (Permutation_length Hperm)).
  destruct (exdot_cpu_spec 6 (map fst xys) (map snd xys) (repeat 0 BIN_COUNT))
    as [Hv HInv];
    [lia | rewrite length_map, Hlen; apply Nat.le_refl
     | rewrite length_map, Hlen; apply Nat.le_refl | reflexivity |].
  rewrite Round_value by assumption. rewrite Hv.
  rewrite combine_fst_snd, firstn_all2 by (rewrite Hlen; apply Nat.le_refl).
  rewrite (sum_terms_perm pair_terms _ _ Hperm).
  vm_compute. reflexivity.
Qed.

Lemma crafted_dot_witness :
  Round (exdot_cpu 6 (map fst (rev (combine crafted ones)))
                   (map snd (rev (combine crafted ones))) (repeat 0 BIN_COUNT))
  = of_Z 2.
Proof.
  apply (crafted_dot_is_two (rev (combine crafted ones))).
  apply Permutation_sym, Permutation_rev.
Defined.

End CraftedInput.

Section ErrorFreeTransform.

(** C5. For finite doubles [a] and [b] whose product does not overflow
    and whose exponents add up to at least -1074, the transform computes
    head = a*b rounded to nearest and tail = fma(a, b, -head), head + tail
    is a*b exactly, and the two-array kernel accumulates both. *)
Theorem two_product_fma_exact (a b : double) :
  valid a = true -> valid b = true -> product_in_range a b = true ->
  TwoProductFMA a b = (mul a b, fma a b (opp (mul a b))) /\
  (scaled (mul a b) + scaled (fma a b (opp (mul a b)))) * 2 ^ 1074
  = scaled a * scaled b /\
  value (exdot_cpu 1 [a] [b] (repeat 0 BIN_COUNT))
  = contrib (mul a b) + contrib (fma a b (opp (mul a b))).
Proof.
  intros Ha Hb Hr. split; [reflexivity|]. split.
  - now destruct (TwoProductFMA_exact a b Ha Hb Hr) as (_ & _ & Hsum).
  - destruct (exdot_cpu_spec 1 [a] [b] (repeat 0 BIN_COUNT)
                ltac:(lia) (Nat.le_refl 1) (Nat.le_refl 1) eq_refl) as [Hv _].
    rewrite Hv. change (Z.to_nat 1) with 1%nat.
    cbn [combine firstn sum_terms fold_right].
    unfold pair_terms, TwoProductFMA. cbn [fst snd]. lia.
Qed.

Lemma two_product_fma_witness :
  TwoProductFMA b_eps b_eps = (mul b_eps b_eps, fma b_eps b_eps (opp (mul b_eps b_eps))) /\
  (scaled (mul b_eps b_eps) + scaled (fma b_eps b_eps (opp (mul b_eps b_eps)))) * 2 ^ 1074
  = scaled b_eps * scaled b_eps /\
  value (exdot_cpu 1 [b_eps] [b_eps] (repeat 0 BIN_COUNT))
  = contrib (mul b_eps b_eps) + contrib (fma b_eps b_eps (opp (mul b_eps b_eps))).
Proof.
  apply (two_product_fma_exact b_eps b_eps); vm_compute; reflexivity.
Defined.

(** The claim as stated fails for finite doubles whose product
    underflows: head and tail of [2^-600 * 2^-600] are both zero. *)
Lemma two_product_fma_counterexample :
  valid tiny = true /\ is_finite tiny = true /\
  TwoProductFMA tiny tiny = (S754_zero false, S754_zero false) /\
  (scaled (fst (TwoProductFMA tiny tiny)) + scaled (snd (TwoProductFMA tiny tiny))) * 2 ^ 1074
  <> scaled tiny * scaled tiny.
Proof. vm_compute. repeat split; discriminate. Qed.

End ErrorFreeTransform.

Section ThreeArrays.

Lemma exdot_cpu3_spec (N : Z) (a b c : list double) (h : superacc) :
  0 <= N < 2 ^ 31 ->
  (Z.to_nat N <= length a)%nat -> (Z.to_nat N <= length b)%nat ->
  (Z.to_nat N <= length c)%nat -> length h = BIN_COUNT ->
  value (exdot_cpu3 N a b c h)
  = sum_terms triple_term (firstn (Z.to_nat N) (combine (combine a b) c)) /\
  Inv (exdot_cpu3 N a b c h).
Proof.
  intros HN Ha Hb Hc Hh. unfold exdot_cpu3.
  rewrite to_int_u32_small, clear_fresh by assumption.
  pose proof (scale_le (N + 8) (2 ^ 45) ltac:(lia)) as Hs.
  destruct (ExDOTFPE_cpu3_spec N a b c (repeat 0 BIN_COUNT) HN Ha Hb Hc zeros_Inv)
    as (Hv & HInv & _).
  - change (value (repeat 0 BIN_COUNT)) with 0. rewrite CAP_UNIT. cbn [Z.abs]. lia.
  - change (value (repeat 0 BIN_COUNT)) with 0 in Hv. split; [lia | exact HInv].
Qed.

(** C1 (as the code has it). The three-array kernel accumulates one
    double for every triple, the product [a[i]*b[i]] rounded and then
    multiplied by [c[i]] and rounded again; no tail of either
    multiplication reaches the accumulator. *)
Theorem triple_product_accumulates_rounded_product
        (N : Z) (a b c : list double) (h : superacc) :
  0 <= N < 2 ^ 31 ->
  (Z.to_nat N <= length a)%nat -> (Z.to_nat N <= length b)%nat ->
  (Z.to_nat N <= length c)%nat -> length h = BIN_COUNT ->
  value (exdot_cpu3 N a b c h)
  = sum_terms (fun t => contrib (fma (fma (fst (fst t)) (snd (fst t)) zero) (snd t) zero))
              (firstn (Z.to_nat N) (combine (combine a b) c)).
Proof.
  intros HN Ha Hb Hc Hh.
  now destruct (exdot_cpu3_spec N a b c h HN Ha Hb Hc Hh) as [Hv _].
Qed.

Lemma triple_product_witness :
  value (exdot_cpu3 1 [d1] [b_eps] [b_eps] (repeat 0 BIN_COUNT))
  = sum_terms (fun t => contrib (fma (fma (fst (fst t)) (snd (fst t)) zero) (snd t) zero))
              (firstn (Z.to_nat 1) (combine (combine [d1] [b_eps]) [b_eps])).
Proof.
  apply (triple_product_accumulates_rounded_product 1 [d1] [b_eps] [b_eps]
           (repeat 0 BIN_COUNT)).
  - lia.
  - cbn. lia.
  - cbn. lia.
  - cbn. lia.
  - reflexivity.
Defined.

(** The claim as stated fails: for 1 * (1+2^-52) * (1+2^-52) the tail
    2^-104 of the second multiplication is not zero, the kernel
    accumulates the head alone, and the accumulator differs from the
    one the claimed algorithm leaves. *)
Lemma triple_product_counterexample :
  snd (TwoProductFMA (fst (TwoProductFMA d1 b_eps)) b_eps) = of_Z_scaled 1 (-104) /\
  value (exdot_cpu3 1 [d1] [b_eps] [b_eps] (repeat 0 BIN_COUNT))
  = contrib (fst (TwoProductFMA (fst (TwoProductFMA d1 b_eps)) b_eps)) /\
  value (exdot_cpu3 1 [d1] [b_eps] [b_eps] (repeat 0 BIN_COUNT))
  <> value (ExDOTFPE_cpu3_claimed 1 [d1] [b_eps] [b_eps] (repeat 0 BIN_COUNT)).
Proof. vm_compute. repeat split; discriminate. Qed.

End ThreeArrays.

(** ** Nested operands and the front end *)

Section Nested.

Lemma add_range_lows (la : superacc) :
  forall (lb : superacc) (ta tb : Z) (k : nat),
    length la = length lb -> (k + length la = IMAX)%nat ->
    add_range k IMIN IMAX (la ++ [ta]) (lb ++ [tb]) = merge la lb ++ [ta].
Proof.
  induction la as [|u la IH]; intros [|v lb] ta tb k Hlen Hk; try discriminate.
  - cbn [app add_range length] in *. rewrite Nat.add_0_r in Hk. subst k.
    rewrite Nat.ltb_irrefl, andb_false_r. reflexivity.
  - cbn [app add_range length] in *.
    replace (IMIN <=? k)%nat with true by (symmetry; apply Nat.leb_le; unfold IMIN; lia).
    replace (k <? IMAX)%nat with true by (symmetry; apply Nat.ltb_lt; lia).
    cbn [andb]. rewrite (IH lb ta tb (S k)) by lia. reflexivity.
Qed.

(** What one round of the fold leaves in [acc[0]]: the sum of the two
    values less the last bin of the normalized [acc[i]], which the loop
    over [IMIN <= k < IMAX] does not reach. *)
Lemma fold_component_value (a b : superacc) :
  Inv a -> Inv b ->
  value (fold_component a b)
  = value a + value b - TOPW * last (Normalize IMIN IMAX b) 0.
Proof.
  intros Ha Hb. unfold fold_component.
  destruct (Normalize_spec a Ha) as (Hval_a & la & ta & Hea & Hla & Hda).
  destruct (Normalize_spec b Hb) as (Hval_b & lb & tb & Heb & Hlb & Hdb).
  rewrite Hea, Heb in *. rewrite last_last.
  rewrite add_range_lows by (unfold IMAX; lia).
  destruct (merge_lows 1 la lb ltac:(lia) ltac:(congruence)) as (Hm & _ & Hl).
  - eapply Forall_impl; [|exact Hda]. unfold digit. intros u Hu. lia.
  - exact Hdb.
  - destruct (canonical_value la ta Hla Hda) as [Hca _].
    destruct (canonical_value lb tb Hlb Hdb) as [Hcb _].
    rewrite value_app, Hl, Hla, value_cons, Hm. cbn [value].
    change (2 ^ (DIGITS * Z.of_nat 38)) with TOPW. lia.
Qed.

(** C3 (the code at two failing inputs). Two components with the dot
    products 1 and -1: the fold leaves the last bin of the second
    accumulator out, where its sign lives, and the nested dot returns
    2^1008; the same data in one flat vector give 0.  Two components
    with the dot products 1 and 2^1010: the last bin holds all of the
    second one, and the nested dot returns 1 where the flat one returns
    2^1010. *)
Theorem nested_dot_drops_last_bin :
  doDot true (0, 0)%nat (VecVec [MPIVec (vec1 d1); MPIVec (vec1 (opp d1))]) (vec1 d1)
        (VecVec [MPIVec (vec1 d1); MPIVec (vec1 d1)])
  = Done (of_Z_scaled 1 1008) /\
  doDot true (0, 0)%nat (MPIVec {| local_data := [[[d1; opp d1]]] |})
        {| local_data := [[[d1; d1]]] |} (MPIVec {| local_data := [[[d1; d1]]] |})
  = Done (S754_zero false) /\
  doDot true (0, 0)%nat (VecVec [MPIVec (vec1 d1); MPIVec (vec1 huge)]) (vec1 d1)
        (VecVec [MPIVec (vec1 d1); MPIVec (vec1 d1)])
  = Done d1 /\
  doDot true (0, 0)%nat (MPIVec {| local_data := [[[d1; huge]]] |})
        {| local_data := [[[d1; d1]]] |} (MPIVec {| local_data := [[[d1; d1]]] |})
  = Done huge.
Proof. vm_compute. repeat split; reflexivity. Qed.

Lemma components_more (f : Vector -> Vector -> outcome superacc) (xs : list Vector) :
  forall ys, (length xs <= length ys)%nat ->
             components f xs ys = components f xs (firstn (length xs) ys).
Proof.
  induction xs as [|xi xs IH]; intros ys Hlen; [reflexivity|].
  destruct ys as [|yi ys]; [cbn in Hlen; lia|].
  cbn [length firstn components]. rewrite <- IH by (cbn in Hlen; lia). reflexivity.
Qed.

(** C6 (as the code has it). Nested operands whose component counts
    disagree stop at the assertion, before any accumulation, in a build
    that defines DG_DEBUG.  A build without it has no check: components
    of [y] beyond the last one of [x] are ignored. *)
Theorem nested_shape_mismatch (me : rank) (xs ys : list Vector) (m : MPI_Vector) :
  length xs <> length ys ->
  doDot true me (VecVec xs) m (VecVec ys) = AssertFailed /\
  ((length xs < length ys)%nat ->
   doDot false me (VecVec xs) m (VecVec ys)
   = doDot false me (VecVec xs) m (VecVec (firstn (length xs) ys))).
Proof.
  intros Hne. split.
  - unfold doDot. cbn [doDot_superacc].
    apply Nat.eqb_neq in Hne. rewrite Hne. reflexivity.
  - intros Hlt. unfold doDot. cbn [doDot_superacc andb].
    now rewrite components_more by lia.
Qed.

Lemma nested_shape_mismatch_witness :
  doDot true (0, 0)%nat (VecVec [MPIVec (vec1 d1)]) (vec1 d1)
        (VecVec [MPIVec (vec1 d1); MPIVec (vec1 d2)]) = AssertFailed /\
  ((length [MPIVec (vec1 d1)] < length [MPIVec (vec1 d1); MPIVec (vec1 d2)])%nat ->
   doDot false (0, 0)%nat (VecVec [MPIVec (vec1 d1)]) (vec1 d1)
         (VecVec [MPIVec (vec1 d1); MPIVec (vec1 d2)])
   = doDot false (0, 0)%nat (VecVec [MPIVec (vec1 d1)]) (vec1 d1)
           (VecVec (firstn (length [MPIVec (vec1 d1)])
                           [MPIVec (vec1 d1); MPIVec (vec1 d2)]))).
Proof.
  apply (nested_shape_mismatch (0, 0)%nat [MPIVec (vec1 d1)]
           [MPIVec (vec1 d1); MPIVec (vec1 d2)] (vec1 d1)).
  cbn. discriminate.
Defined.

(** The claim as stated fails in a build without DG_DEBUG: one
    component against two is computed, with the result 1. *)
Lemma nested_shape_mismatch_counterexample :
  length [MPIVec (vec1 d1)] <> length [MPIVec (vec1 d1); MPIVec (vec1 d2)] /\
  doDot false (0, 0)%nat (VecVec [MPIVec (vec1 d1)]) (vec1 d1)
        (VecVec [MPIVec (vec1 d1); MPIVec (vec1 d2)]) = Done d1.
Proof. split; [cbn; discriminate | vm_compute; reflexivity]. Qed.

End Nested.

Section FrontEnd.
Import Blas2.

Lemma eqb_zero (alpha : double) :
  eqb alpha zero = true -> exists s, alpha = S754_zero s.
Proof.
  destruct alpha as [s | s | | s m e]; cbn; intros H; try discriminate.
  - now exists s.
  - destruct s; discriminate.
  - destruct s; discriminate.
Qed.

Lemma scal_zero (s : bool) (y : list double) :
  forallb is_finite y = true -> forallb is_zero (scal y (S754_zero s)) = true.
Proof.
  unfold scal. induction y as [|yi y IH]; intros Hfin; [reflexivity|].
  cbn [forallb map] in *. apply andb_true_iff in Hfin. destruct Hfin as [Hyi Hy].
  rewrite IH by assumption.
  destruct yi as [t | t | | t m e]; try discriminate; reflexivity.
Qed.

(** C8. With alpha equal to zero, symv(alpha, P, x, beta, y) and gemv
    with the same signature return after scaling y by alpha: whatever
    P, x and beta are, every element of a finite y comes out as a zero,
    and the term beta*y of the documented formula is not applied. *)
Theorem symv_gemv_alpha_zero
        (Precon : Type)
        (doSymv doGemv : double -> Precon -> list double -> double -> list double
                         -> list double)
        (alpha : double) (P : Precon) (x : list double) (beta : double)
        (y : list double) :
  eqb alpha zero = true -> forallb is_finite y = true ->
  symv Precon doSymv alpha P x beta y = scal y alpha /\
  gemv Precon doGemv alpha P x beta y = scal y alpha /\
  forallb is_zero (scal y alpha) = true.
Proof.
  intros Halpha Hy. unfold symv, gemv. rewrite Halpha.
  split; [reflexivity|]. split; [reflexivity|].
  destruct (eqb_zero alpha Halpha) as [s ->]. now apply scal_zero.
Qed.

Lemma symv_gemv_alpha_zero_witness :
  symv unit (fun _ _ _ beta y => map (mul beta) y) zero tt [d1] d1 [d1; d2]
  = scal [d1; d2] zero /\
  gemv unit (fun _ _ _ beta y => map (mul beta) y) zero tt [d1] d1 [d1; d2]
  = scal [d1; d2] zero /\
  forallb is_zero (scal [d1; d2] zero) = true.
Proof.
  apply (symv_gemv_alpha_zero unit (fun _ _ _ beta y => map (mul beta) y)
                              (fun _ _ _ beta y => map (mul beta) y)
                              zero tt [d1] d1 [d1; d2]); reflexivity.
Defined.


End FrontEnd.

